(** * tox-poetry-installer: the transient dependency walk of [utilities.py]

    A shallow embedding of [identify_transients] (with its nested helper
    [find_deps_of_deps]) and of the three dependency set builders
    [find_project_dependencies], [find_dev_dependencies] and
    [find_env_dependencies], followed by the properties of the walk; then
    [install_to_venv], over the Poetry installer it calls.

    Conventions of the embedding:
    - Python [str] is [string]; [dict] with [str] keys is [gmap string _];
      the [set] of searched names is a [gset string]; lists are lists.
    - The two variables captured by the closure [find_deps_of_deps]
      ([searched] and [transients]) form an explicit [state] that every call
      receives and returns; a raised exception leaves the mutated state
      behind, as in Python, so the state is returned next to the outcome.
    - The recursion of [find_deps_of_deps] is driven by a fuel argument;
      [identify_transients] runs it with [fuel_bound packages] and
      [find_deps_of_deps_total] shows that this is always enough.  The
      interpreter's recursion limit is not modelled.
    - Calls to [tox.reporter] only print diagnostics and are left out. *)

From Stdlib Require Import Ascii String.
From stdpp Require Import gmap strings list fin_maps relations.

Open Scope string_scope.
Open Scope list_scope.
Open Scope nat_scope.

(** ** Strings *)

(** [str.lower] on the ASCII range; other bytes are left alone. *)
Definition ascii_lower (c : ascii) : ascii :=
  let n := nat_of_ascii c in
  if ((65 <=? n) && (n <=? 90))%nat then ascii_of_nat (n + 32)%nat else c.

Fixpoint lower (s : string) : string :=
  match s with
  | EmptyString => EmptyString
  | String c rest => String (ascii_lower c) (lower rest)
  end.

(** Python's [delimiter in s] for two strings: substring test. *)
Fixpoint contains (delimiter s : string) : bool :=
  String.prefix delimiter s ||
  match s with
  | EmptyString => false
  | String _ rest => contains delimiter rest
  end.

(** ** Data model *)

(** A requirement of a package ([poetry.core] [Dependency]): the walk reads
    only [name]; [is_optional()] is read by [find_project_dependencies]. *)
Module Dependency.
Record t := mk {
  name : string;
  constraint : string;
  optional : bool
}.

#[global] Instance dependency_eq_dec : EqDecision t.
Proof. solve_decision. Defined.
End Dependency.

(** A locked package ([poetry.core] [Package]).  The type [C] of
    [python_constraint] belongs to Poetry and stays abstract. *)
Module Package.
Record t (C : Type) := mk {
  name : string;
  version : string;
  python_constraint : C;
  platform : option string;
  requires : list Dependency.t
}.
Arguments mk {C} _ _ _ _ _.
Arguments name {C} _.
Arguments version {C} _.
Arguments python_constraint {C} _.
Arguments platform {C} _.
Arguments requires {C} _.

#[global] Instance package_eq_dec {C} `{EqDecision C} : EqDecision (t C).
Proof. solve_decision. Defined.
End Package.

(** Exceptions that the modelled functions raise. *)
Inductive exn : Type :=
  | KeyError (key : string)
  | LockedDepVersionConflictError (msg : string)
  | LockedDepNotFoundError (msg : string)
  | ExtraNotFoundError (msg : string).

(** How a call ends; [OutOfFuel] is an artefact of the model. *)
Inductive outcome (A : Type) : Type :=
  | Return (a : A)
  | Raise (e : exn)
  | OutOfFuel.
Arguments Return {A} a.
Arguments Raise {A} e.
Arguments OutOfFuel {A}.

(** The part of a Tox virtual environment that the builders read:
    [venv.name], [venv.envconfig.extras], [venv.envconfig.locked_deps]. *)
Record ToxVirtualEnv := {
  venv_name : string;
  envconfig_extras : list string;
  envconfig_locked_deps : list string
}.

(** The part of the Poetry object that the builders read:
    [poetry.package.name], [poetry.package.requires],
    [poetry.package.extras] and the [dev-dependencies] table of
    [poetry.pyproject.data["tool"]["poetry"]] (absent, or its entries in
    document order). *)
Record Poetry := {
  package_name : string;
  package_requires : list Dependency.t;
  package_extras : gmap string (list Dependency.t);
  pyproject_dev_dependencies : option (list (string * string))
}.

(** ** Sample stores

    Small stores used by the examples below; [c] is the interpreter
    constraint given to every package. *)

Definition sample_requirement (name : string) : Dependency.t :=
  Dependency.mk name "*" false.

Definition sample_package {C : Type} (name : string) (c : C)
    (deps : list string) : Package.t C :=
  Package.mk name "1.0" c None (map sample_requirement deps).

(** [{A: requires [B], B: requires [C], C: requires []}] *)
Definition chain_store {C : Type} (c : C) : gmap string (Package.t C) :=
  <["A" := sample_package "A" c ["B"]]>
    (<["B" := sample_package "B" c ["C"]]>
       (<["C" := sample_package "C" c []]> ∅)).

(** [{A: requires [B], B: requires [A]}] *)
Definition cycle_store {C : Type} (c : C) : gmap string (Package.t C) :=
  <["A" := sample_package "A" c ["B"]]>
    (<["B" := sample_package "B" c ["A"]]> ∅).

(** [{a: requires [b]}], with no entry for [b]. *)
Definition dangling_store {C : Type} (c : C) : gmap string (Package.t C) :=
  <["a" := sample_package "a" c ["b"]]> ∅.

(** [{a: requires [r, c], r: requires [c, d], c: requires [],
    d: requires []}]; [r] rejects the running interpreter. *)
Definition pruned_store : gmap string (Package.t bool) :=
  <["a" := sample_package "a" true ["r"; "c"]]>
    (<["r" := sample_package "r" false ["c"; "d"]]>
       (<["c" := sample_package "c" true []]>
          (<["d" := sample_package "d" true []]> ∅))).

(** [{a: requires [pip, c], c: requires [], pip: requires [d],
    d: requires []}] *)
Definition unsafe_store : gmap string (Package.t bool) :=
  <["a" := sample_package "a" true ["pip"; "c"]]>
    (<["c" := sample_package "c" true []]>
       (<["pip" := sample_package "pip" true ["d"]]>
          (<["d" := sample_package "d" true []]> ∅))).

(** [{a: requires [c], b: requires [c], c: requires []}] *)
Definition shared_store : gmap string (Package.t bool) :=
  <["a" := sample_package "a" true ["c"]]>
    (<["b" := sample_package "b" true ["c"]]>
       (<["c" := sample_package "c" true []]> ∅)).

(** [{foo: requires []}] *)
Definition foo_store : gmap string (Package.t bool) :=
  <["foo" := sample_package "foo" true []]> ∅.

(** A project named [proj] whose [dev-dependencies] table has the single
    key [Foo]. *)
Definition foo_project : Poetry :=
  {| package_name := "proj";
     package_requires := [];
     package_extras := ∅;
     pyproject_dev_dependencies := Some [("Foo", "^1.0")] |}.

Definition sample_venv (locked_deps : list string) : ToxVirtualEnv :=
  {| venv_name := "py";
     envconfig_extras := [];
     envconfig_locked_deps := locked_deps |}.

(** Positions along the chain and along the dangling edge. *)
Definition chain_rank (x : string) : nat :=
  if decide (x = "A") then 0 else if decide (x = "B") then 1 else 2.

Definition dangling_rank (x : string) : nat :=
  if decide (x = "a") then 0 else 1.

(** The values Poetry and [constants.py] give to the imported constants,
    and the simplest constraint type: a package either flag_allows the running
    interpreter or it does not. *)
Definition poetry_unsafe_packages : gset string :=
  {[ "setuptools"; "distribute"; "pip"; "wheel" ]}.

Definition pep508_version_delimiters : list string :=
  ["~="; "=="; "!="; ">"; "<"].

Definition flag_allows (c : bool) (version : unit) : bool := c.

Section Resolver.

(** What [utilities.py] imports from outside the file:
    [python_constraint.allows], [constants.PLATFORM_VERSION],
    [sys.platform], [_poetry.Provider.UNSAFE_PACKAGES] and
    [constants.PEP508_VERSION_DELIMITERS]. *)
Context {C V : Type} `{EqDecision C}.
Variable allows : C → V → bool.
Variable PLATFORM_VERSION : V.
Variable sys_platform : string.
Variable UNSAFE_PACKAGES : gset string.
Variable PEP508_VERSION_DELIMITERS : list string.

Local Abbreviation PoetryPackage := (Package.t C).
(** [datatypes.PackageMap]: package name to package. *)
Local Abbreviation PackageMap := (gmap string (Package.t C)).

(** *** The state shared by the calls of [find_deps_of_deps]

    [visits] is a ghost field: the arguments with which
    [find_deps_of_deps] was entered, in order.  Nothing reads it; it is
    the list form of [searched] (lemma [traverse_visits_searched]). *)
Record state := {
  searched : gset string;
  transients : list PoetryPackage;
  visits : list string
}.

Definition initial_state : state :=
  {| searched := ∅; transients := []; visits := [] |}.

(** [searched.add(name)] at the entry of [find_deps_of_deps]. *)
Definition mark (name : string) (st : state) : state :=
  {| searched := {[name]} ∪ searched st;
     transients := transients st;
     visits := visits st ++ [name] |}.

(** [transients.append(package)]. *)
Definition include (package : PoetryPackage) (st : state) : state :=
  {| searched := searched st;
     transients := transients st ++ [package];
     visits := visits st |}.

(** The two compatibility tests of [find_deps_of_deps]. *)
Definition python_ok (package : PoetryPackage) : bool :=
  allows (Package.python_constraint package) PLATFORM_VERSION.

Definition platform_ok (package : PoetryPackage) : bool :=
  match Package.platform package with
  | Some p => bool_decide (p = sys_platform)
  | None => true
  end.

Definition compatible (package : PoetryPackage) : bool :=
  python_ok package && platform_ok package.

(** The [for index, dep in enumerate(package.requires)] loop, over the
    recursive call [rec]. *)
Fixpoint for_requires (rec : string → state → state * outcome unit)
    (deps : list Dependency.t) (st : state) : state * outcome unit :=
  match deps with
  | [] => (st, Return tt)
  | dep :: rest =>
      if bool_decide (Dependency.name dep ∈ searched st)
      then for_requires rec rest st
      else match rec (Dependency.name dep) st with
           | (st', Return _) => for_requires rec rest st'
           | failed => failed
           end
  end.

Section Walk.
Variable packages : PackageMap.
Variable allow_missing : list string.

Fixpoint find_deps_of_deps (fuel : nat) (name : string) (st : state)
    : state * outcome unit :=
  match fuel with
  | O => (st, OutOfFuel)
  | S fuel' =>
      let st := mark name st in
      if bool_decide (name ∈ UNSAFE_PACKAGES) then (st, Return tt)
      else
        match packages !! name with
        | None =>
            if bool_decide (name ∈ allow_missing) then (st, Return tt)
            else (st, Raise (KeyError name))
        | Some package =>
            if negb (python_ok package) then (st, Return tt)
            else if negb (platform_ok package) then (st, Return tt)
            else
              match for_requires (find_deps_of_deps fuel')
                      (Package.requires package) st with
              | (st', Return _) => (include package st', Return tt)
              | failed => failed
              end
        end
  end.

(** *** The dependency graph of a store *)

(** [b] is named by a requirement of the package stored under [a]. *)
Definition edge (a b : string) : Prop :=
  ∃ package dep,
    packages !! a = Some package ∧ dep ∈ Package.requires package ∧
    Dependency.name dep = b.

(** [a] passes every test of [find_deps_of_deps]: it is not unsafe, it is in
    the store, and its package fits the interpreter and the platform. *)
Definition eligible (a : string) : Prop :=
  (a ∉ UNSAFE_PACKAGES) ∧
  ∃ package, packages !! a = Some package ∧ compatible package = true.

(** The edges that the walk follows: those that leave an eligible name. *)
Definition follows (a b : string) : Prop := eligible a ∧ edge a b.

(** What one stretch of the walk did: it went from [st] to [st'], entered
    [find_deps_of_deps] with the names [vs] (in this order), appended the
    packages of the names [ns] (in this order) and ended with [r]. *)
Record walked (st st' : state) (vs ns : list string) (r : outcome unit)
    : Prop := {
  w_searched : searched st' = searched st ∪ list_to_set vs;
  w_visits : visits st' = visits st ++ vs;
  w_fresh : ∀ x, x ∈ vs → x ∉ searched st;
  w_nodup : NoDup vs;
  w_transients :
    ∃ new, transients st' = transients st ++ new ∧
           Forall2 (λ x q, packages !! x = Some q) ns new;
  w_included : ∀ x, x ∈ ns → x ∈ vs ∧ eligible x;
  w_included_nodup : NoDup ns;
  w_raise :
    ∀ e, r = Raise e →
      ∃ k, e = KeyError k ∧ k ∈ vs ∧ packages !! k = None ∧
           (k ∉ allow_missing) ∧ (k ∉ UNSAFE_PACKAGES);
  w_return :
    r = Return tt → ∀ x, x ∈ vs →
      (packages !! x = None → x ∈ UNSAFE_PACKAGES ∨ x ∈ allow_missing) ∧
      (eligible x → x ∈ ns ∧ ∀ y, edge x y → y ∈ searched st');
  w_order :
    r = Return tt → ∀ i x y, ns !! i = Some x → edge x y →
      y ∈ searched st ∨
      (y ∈ vs ∧ (eligible y → ∃ j, j < i ∧ ns !! j = Some y)) ∨
      (y ∈ vs ∧ rtc follows y x)
}.

(** What a call [rec name st] that did not run out of fuel did: a stretch
    that starts by entering [name] and stays among the names that the
    followed edges reach from [name]. *)
Definition visit_spec (rec : string → state → state * outcome unit) : Prop :=
  ∀ name st st' r,
    name ∉ searched st → rec name st = (st', r) → r ≠ OutOfFuel →
    ∃ vs ns, walked st st' (name :: vs) ns r ∧
             ∀ x, x ∈ vs → rtc follows name x.

(** Nothing reachable from [root] is unsafe or fails a compatibility test. *)
Definition clean_from (root : string) : Prop :=
  ∀ x, rtc edge root x →
    (x ∉ UNSAFE_PACKAGES) ∧
    ∀ package, packages !! x = Some package → compatible package = true.

(** Everything reachable from [root] has a package in the store. *)
Definition closed_from (root : string) : Prop :=
  ∀ x, rtc edge root x → is_Some (packages !! x).

(** In [l], the package of every requirement of a package stands before
    that package. *)
Definition postorder (l : list PoetryPackage) : Prop :=
  ∀ i q dep, l !! i = Some q → dep ∈ Package.requires q →
    ∃ j qd, j < i ∧ l !! j = Some qd ∧
            packages !! Dependency.name dep = Some qd.

(** Keys of the store are the names of the packages stored under them: the
    store is built as [{package.name: package for package in ...}]. *)
Definition store_wf : Prop :=
  ∀ k package, packages !! k = Some package → Package.name package = k.

(** No requirement cycle passes through a name reachable from [root]. *)
Definition acyclic_from (root : string) : Prop :=
  ∀ x, rtc edge root x → ¬ tc edge x x.
End Walk.

(** Every name that a walk over [packages] can meet. *)
Definition known_names (packages : PackageMap) : gset string :=
  list_to_set
    (flat_map
       (λ kp : string * PoetryPackage,
          kp.1 :: Package.name kp.2
               :: map Dependency.name (Package.requires kp.2))
       (map_to_list packages)).

Definition fuel_bound (packages : PackageMap) : nat :=
  size (known_names packages).

(** The body of the [try] of [identify_transients]:
    [find_deps_of_deps(packages[dependency_name].name)]. *)
Definition traverse (packages : PackageMap) (dependency_name : string)
    (allow_missing : list string) : state * outcome unit :=
  match packages !! dependency_name with
  | None => (initial_state, Raise (KeyError dependency_name))
  | Some package =>
      find_deps_of_deps packages allow_missing (fuel_bound packages)
        (Package.name package) initial_state
  end.

Definition has_version_delimiter (dependency_name : string) : bool :=
  existsb (λ delimiter, contains delimiter dependency_name)
    PEP508_VERSION_DELIMITERS.

Definition version_conflict_msg (dependency_name : string) : string :=
  "Locked dependency '" +:+ dependency_name
    +:+ "' cannot include version specifier".

Definition not_found_msg (dependency_name : string) : string :=
  "No version of locked dependency '" +:+ dependency_name
    +:+ "' found in the project lockfile".

(** The [except KeyError] handler of [identify_transients]; it reads the
    root name only. *)
Definition on_key_error (dependency_name : string)
    : outcome (list PoetryPackage) :=
  if bool_decide (dependency_name ∈ UNSAFE_PACKAGES) then Return []
  else if has_version_delimiter dependency_name
  then Raise (LockedDepVersionConflictError
                (version_conflict_msg dependency_name))
  else Raise (LockedDepNotFoundError (not_found_msg dependency_name)).

Definition identify_transients (packages : PackageMap)
    (dependency_name : string) (allow_missing : list string)
    : outcome (list PoetryPackage) :=
  match traverse packages dependency_name allow_missing with
  | (st, Return _) => Return (transients st)
  | (_, Raise (KeyError _)) => on_key_error dependency_name
  | (_, Raise e) => Raise e
  | (_, OutOfFuel) => OutOfFuel
  end.

(** *** The dependency set builders *)

(** The loop shared by the three builders:
    [for x in roots: dependencies += identify_transients(packages, key(x),
    allow_missing=[poetry.package.name])]. *)
Fixpoint extend_with_transients {A : Type} (packages : PackageMap)
    (poetry : Poetry) (key : A → string) (roots : list A)
    (dependencies : list PoetryPackage) : outcome (list PoetryPackage) :=
  match roots with
  | [] => Return dependencies
  | root :: rest =>
      match identify_transients packages (key root) [package_name poetry] with
      | Return found =>
          extend_with_transients packages poetry key rest
            (dependencies ++ found)
      | Raise e => Raise e
      | OutOfFuel => OutOfFuel
      end
  end.

(** [[packages[item.name] for item in items]]: the first missing name
    raises [KeyError]. *)
Fixpoint lookup_all (packages : PackageMap) (items : list Dependency.t)
    : outcome (list PoetryPackage) :=
  match items with
  | [] => Return []
  | item :: rest =>
      match packages !! Dependency.name item with
      | None => Raise (KeyError (Dependency.name item))
      | Some package =>
          match lookup_all packages rest with
          | Return found => Return (package :: found)
          | failed => failed
          end
      end
  end.

Definition extra_not_found_msg (venv : ToxVirtualEnv) (extra : string)
    : string :=
  "Environment '" +:+ venv_name venv +:+ "' specifies project extra '"
    +:+ extra +:+ "' which was not found in the lockfile".

(** The [for extra in venv.envconfig.extras] loop. *)
Fixpoint collect_extras (venv : ToxVirtualEnv) (poetry : Poetry)
    (packages : PackageMap) (extras : list string)
    (extra_dependencies : list PoetryPackage)
    : outcome (list PoetryPackage) :=
  match extras with
  | [] => Return extra_dependencies
  | extra :: rest =>
      match package_extras poetry !! extra with
      | None => Raise (ExtraNotFoundError (extra_not_found_msg venv extra))
      | Some items =>
          match lookup_all packages items with
          | Return found =>
              collect_extras venv poetry packages rest
                (extra_dependencies ++ found)
          | Raise (KeyError _) =>
              Raise (ExtraNotFoundError (extra_not_found_msg venv extra))
          | failed => failed
          end
      end
  end.

Definition find_project_dependencies (venv : ToxVirtualEnv)
    (poetry : Poetry) (packages : PackageMap)
    : outcome (list PoetryPackage) :=
  match lookup_all packages
          (filter (λ item, Dependency.optional item = false)
             (package_requires poetry)) with
  | Return base_dependencies =>
      match collect_extras venv poetry packages (envconfig_extras venv) [] with
      | Return extra_dependencies =>
          extend_with_transients packages poetry
            (λ dep : PoetryPackage, lower (Package.name dep))
            (base_dependencies ++ extra_dependencies) []
      | failed => failed
      end
  | failed => failed
  end.

Definition find_dev_dependencies (poetry : Poetry) (packages : PackageMap)
    : outcome (list PoetryPackage) :=
  extend_with_transients packages poetry (λ dep_name : string, dep_name)
    (match pyproject_dev_dependencies poetry with
     | Some table => map fst table
     | None => []
     end) [].

Definition find_env_dependencies (venv : ToxVirtualEnv) (poetry : Poetry)
    (packages : PackageMap) : outcome (list PoetryPackage) :=
  extend_with_transients packages poetry lower
    (envconfig_locked_deps venv) [].

(** How many times [q] stands in [l]. *)
Definition occurrences (q : PoetryPackage) (l : list PoetryPackage) : nat :=
  length (filter (λ package, package = q) l).

(** An extra of the environment is in order when the project declares it
    and the store holds every package that it lists. *)
Definition extra_resolves (packages : PackageMap) (poetry : Poetry)
    (extra : string) : Prop :=
  ∃ items, package_extras poetry !! extra = Some items ∧
           ∀ item, item ∈ items →
                   is_Some (packages !! Dependency.name item).

(** *** [install_to_venv]

    [_poetry.PipInstaller] belongs to Poetry: [install] stands for
    [installer.install(dependency)] on an installer in state [I]; it leaves
    a new state and may raise an exception of type [E].  The installer is
    built from the virtual environment and the pool of the Poetry object
    and is handed over ready-made. *)
Fixpoint install_to_venv {I E : Type}
    (install : I → PoetryPackage → I * option E) (installer : I)
    (packages : list PoetryPackage) : I * option E :=
  match packages with
  | [] => (installer, None)
  | dependency :: rest =>
      match install installer dependency with
      | (installer', None) => install_to_venv install installer' rest
      | failed => failed
      end
  end.

(** *** More sample data *)

(** The chain store with one more package, [Z], that requires [A]. *)
Definition extended_chain_store : gmap string (Package.t bool) :=
  <["Z" := sample_package "Z" true ["A"]]> (chain_store true).

Definition extras_venv (extras : list string) : ToxVirtualEnv :=
  {| venv_name := "py";
     envconfig_extras := extras;
     envconfig_locked_deps := [] |}.

(** A project that requires [a] and [gone], and optionally [opt]. *)
Definition incomplete_project : Poetry :=
  {| package_name := "proj";
     package_requires :=
       [sample_requirement "a"; Dependency.mk "opt" "*" true;
        sample_requirement "gone"];
     package_extras := ∅;
     pyproject_dev_dependencies := None |}.

(** A project that requires [a] and optionally [opt], with the extras
    [docs: [c]] and [broken: [nowhere]] and the dev dependency [c]. *)
Definition extras_project : Poetry :=
  {| package_name := "proj";
     package_requires :=
       [sample_requirement "a"; Dependency.mk "opt" "*" true];
     package_extras :=
       <["docs" := [sample_requirement "c"]]>
         (<["broken" := [sample_requirement "nowhere"]]> ∅);
     pyproject_dev_dependencies := Some [("c", "^1.0")] |}.

(** The chain of installs below stands for two installers: one that
    records every package it is given and never fails, and one that does
    the same but refuses the package named [a]. *)
Definition recording_installer (log : list (Package.t bool))
    (dependency : Package.t bool)
    : list (Package.t bool) * option string :=
  (log ++ [dependency], None).

Definition refusing_installer (log : list (Package.t bool))
    (dependency : Package.t bool)
    : list (Package.t bool) * option string :=
  if bool_decide (Package.name dependency = "a")
  then (log, Some "cannot install a")
  else (log ++ [dependency], None).

(** [{a: requires [setuptools, pip, c], pip: requires [d], c: requires []}]
    with no entry for [setuptools] and none for [d]. *)
Definition bootstrap_store : gmap string (Package.t bool) :=
  <["a" := sample_package "a" true ["setuptools"; "pip"; "c"]]>
    (<["pip" := sample_package "pip" true ["d"]]>
       (<["c" := sample_package "c" true []]> ∅)).

(** [s] is made of ASCII characters, none of them an upper-case letter. *)
Fixpoint ascii_lower_case (s : string) : bool :=
  match s with
  | EmptyString => true
  | String c rest =>
      let n := nat_of_ascii c in
      (n <? 128) && negb ((65 <=? n) && (n <=? 90)) && ascii_lower_case rest
  end.

(** ** Strings *)

Lemma prefix_append delimiter s :
  String.prefix delimiter s = true ↔ ∃ post, s = delimiter +:+ post.
Proof.
  revert s. induction delimiter as [|a delimiter IH]; intros s.
  - destruct s; (split; [intros _; by eexists|done]).
  - destruct s as [|b s]; simpl.
    + split; [done|]. intros [post Hpost]. discriminate.
    + destruct (ascii_dec a b) as [->|Hne].
      * rewrite IH. split.
        -- intros [post ->]. by exists post.
        -- intros [post Hpost]. exists post.
           change (String b s = String b (delimiter +:+ post)) in Hpost.
           by injection Hpost.
      * split; [done|]. intros [post Hpost].
        change (String b s = String a (delimiter +:+ post)) in Hpost.
        congruence.
Qed.

(** [contains] is the substring test. *)
Lemma contains_spec delimiter s :
  contains delimiter s = true ↔ ∃ pre post, s = pre +:+ delimiter +:+ post.
Proof.
  induction s as [|b s IH].
  - change (contains delimiter EmptyString)
      with (String.prefix delimiter EmptyString || false).
    rewrite orb_true_iff, prefix_append. split.
    + intros [[post Hpost]|?]; [|done]. by exists EmptyString, post.
    + intros (pre & post & Hs). left. destruct pre as [|a pre].
      * by exists post.
      * change (EmptyString = String a (pre +:+ delimiter +:+ post)) in Hs.
        discriminate.
  - change (contains delimiter (String b s))
      with (String.prefix delimiter (String b s) || contains delimiter s).
    rewrite orb_true_iff, prefix_append, IH. split.
    + intros [[post Hpost]|(pre & post & ->)].
      * by exists EmptyString, post.
      * by exists (String b pre), post.
    + intros (pre & post & Hs). destruct pre as [|a pre].
      * left. by exists post.
      * change (String b s = String a (pre +:+ delimiter +:+ post)) in Hs.
        right. injection Hs as -> ->. by exists pre, post.
Qed.

Example lower_mixed_case : lower "PyYAML_3" = "pyyaml_3".
Proof. reflexivity. Qed.

(** ** Facts about stretches of the walk *)

Section WalkFacts.
Variable packages : PackageMap.
Variable allow_missing : list string.

Local Abbreviation walked := (walked packages allow_missing).
Local Abbreviation edge := (edge packages).
Local Abbreviation eligible := (eligible packages).
Local Abbreviation follows := (follows packages).
Local Abbreviation visit_spec := (visit_spec packages allow_missing).
Local Abbreviation find_deps_of_deps :=
  (find_deps_of_deps packages allow_missing).

Lemma mark_searched name st : searched (mark name st) = {[name]} ∪ searched st.
Proof. reflexivity. Qed.

Lemma compatible_split package :
  compatible package = true ↔
  python_ok package = true ∧ platform_ok package = true.
Proof. unfold compatible. apply andb_true_iff. Qed.

(** The empty stretch. *)
Lemma walked_nil st : walked st st [] [] (Return tt).
Proof.
  split; simpl.
  - set_solver.
  - by rewrite app_nil_r.
  - intros x Hx. by apply elem_of_nil in Hx.
  - constructor.
  - exists []. by rewrite app_nil_r.
  - intros x Hx. by apply elem_of_nil in Hx.
  - constructor.
  - intros e He. discriminate.
  - intros _ x Hx. by apply elem_of_nil in Hx.
  - intros _ i x y Hi. by rewrite lookup_nil in Hi.
Qed.

(** Two stretches in a row, the first of which returned. *)
Lemma walked_seq st st1 st2 vs1 vs2 ns1 ns2 r :
  walked st st1 vs1 ns1 (Return tt) →
  walked st1 st2 vs2 ns2 r →
  walked st st2 (vs1 ++ vs2) (ns1 ++ ns2) r.
Proof.
  intros W1 W2.
  pose proof (w_searched _ _ _ _ _ _ _ W1) as S1.
  pose proof (w_searched _ _ _ _ _ _ _ W2) as S2.
  assert (Hin1 : ∀ x, x ∈ vs1 → x ∈ searched st1).
  { intros x Hx. rewrite S1. set_solver. }
  split.
  - rewrite S2, S1, list_to_set_app_L. set_solver.
  - rewrite (w_visits _ _ _ _ _ _ _ W2), (w_visits _ _ _ _ _ _ _ W1).
    by rewrite app_assoc.
  - intros x [Hx|Hx]%elem_of_app.
    + by apply (w_fresh _ _ _ _ _ _ _ W1).
    + apply (w_fresh _ _ _ _ _ _ _ W2) in Hx. rewrite S1 in Hx. set_solver.
  - apply NoDup_app. split; [apply (w_nodup _ _ _ _ _ _ _ W1)|].
    split; [|apply (w_nodup _ _ _ _ _ _ _ W2)].
    intros x Hx1 Hx2. apply (w_fresh _ _ _ _ _ _ _ W2) in Hx2. auto.
  - destruct (w_transients _ _ _ _ _ _ _ W1) as (new1 & T1 & F1).
    destruct (w_transients _ _ _ _ _ _ _ W2) as (new2 & T2 & F2).
    exists (new1 ++ new2). split.
    + by rewrite T2, T1, app_assoc.
    + by apply Forall2_app.
  - intros x [Hx|Hx]%elem_of_app.
    + destruct (w_included _ _ _ _ _ _ _ W1 x Hx). split; [|done]. set_solver.
    + destruct (w_included _ _ _ _ _ _ _ W2 x Hx). split; [|done]. set_solver.
  - apply NoDup_app. split; [apply (w_included_nodup _ _ _ _ _ _ _ W1)|].
    split; [|apply (w_included_nodup _ _ _ _ _ _ _ W2)].
    intros x Hx1 Hx2.
    apply (w_included _ _ _ _ _ _ _ W1) in Hx1 as [Hx1 _].
    apply (w_included _ _ _ _ _ _ _ W2) in Hx2 as [Hx2 _].
    apply (w_fresh _ _ _ _ _ _ _ W2) in Hx2. auto.
  - intros e He.
    destruct (w_raise _ _ _ _ _ _ _ W2 e He) as (k & ? & ? & ?).
    exists k. split; [done|]. split; [set_solver|done].
  - intros Hr x [Hx|Hx]%elem_of_app.
    + destruct (w_return _ _ _ _ _ _ _ W1 eq_refl x Hx) as [Hm He].
      split; [done|]. intros Hel. destruct (He Hel) as [Hns Hcl].
      split; [set_solver|]. intros y Hy. rewrite S2. set_solver.
    + destruct (w_return _ _ _ _ _ _ _ W2 Hr x Hx) as [Hm He].
      split; [done|]. intros Hel. destruct (He Hel) as [Hns Hcl].
      split; [set_solver|done].
  - intros Hr i x y Hi Hxy.
    apply lookup_app_Some in Hi as [Hi|[Hlen Hi]].
    + destruct (w_order _ _ _ _ _ _ _ W1 eq_refl i x y Hi Hxy)
        as [Hy|[[Hy Hd]|[Hy Hp]]].
      * by left.
      * right; left. split; [set_solver|]. intros Hel.
        destruct (Hd Hel) as (j & Hj & Hnj). exists j. split; [done|].
        by apply lookup_app_l_Some.
      * right; right. split; [set_solver|done].
    + destruct (w_order _ _ _ _ _ _ _ W2 Hr _ x y Hi Hxy)
        as [Hy|[[Hy Hd]|[Hy Hp]]].
      * rewrite S1 in Hy. apply elem_of_union in Hy as [Hy|Hy]; [by left|].
        apply elem_of_list_to_set in Hy.
        right; left. split; [set_solver|]. intros Hel.
        destruct (w_return _ _ _ _ _ _ _ W1 eq_refl y Hy) as [_ He].
        destruct (He Hel) as [Hns _].
        apply list_elem_of_lookup in Hns as [j Hj]. exists j. split.
        -- apply lookup_lt_Some in Hj. lia.
        -- by apply lookup_app_l_Some.
      * right; left. split; [set_solver|]. intros Hel.
        destruct (Hd Hel) as (j & Hj & Hnj). exists (length ns1 + j).
        split; [lia|]. rewrite lookup_app_r by lia.
        by replace (length ns1 + j - length ns1) with j by lia.
      * right; right. split; [set_solver|done].
Qed.

(** A visit that only marks the name: unsafe, tolerated as missing, or
    incompatible. *)
Lemma walked_visit_skip name st :
  name ∉ searched st →
  ¬ eligible name →
  (packages !! name = None →
   name ∈ UNSAFE_PACKAGES ∨ name ∈ allow_missing) →
  walked st (mark name st) [name] [] (Return tt).
Proof.
  intros Hfresh Hne Hmiss. split; simpl.
  - set_solver.
  - done.
  - intros x ->%list_elem_of_singleton. done.
  - apply NoDup_singleton.
  - exists []. by rewrite app_nil_r.
  - intros x Hx. by apply elem_of_nil in Hx.
  - constructor.
  - intros e He. discriminate.
  - intros _ x ->%list_elem_of_singleton. split; [done|]. intros He. done.
  - intros _ i x y Hi. by rewrite lookup_nil in Hi.
Qed.

(** A visit that fails: the name is missing and not tolerated. *)
Lemma walked_visit_missing name st :
  name ∉ searched st →
  packages !! name = None →
  name ∉ allow_missing →
  name ∉ UNSAFE_PACKAGES →
  walked st (mark name st) [name] [] (Raise (KeyError name)).
Proof.
  intros Hfresh Hnone Ham Hun. split; simpl.
  - set_solver.
  - done.
  - intros x ->%list_elem_of_singleton. done.
  - apply NoDup_singleton.
  - exists []. by rewrite app_nil_r.
  - intros x Hx. by apply elem_of_nil in Hx.
  - constructor.
  - intros e [= <-]. exists name. repeat split; try done.
    by apply list_elem_of_singleton.
  - intros He. discriminate.
  - intros He. discriminate.
Qed.

(** A visit of an eligible name whose requirement loop failed. *)
Lemma walked_enter_raise name st st2 vs ns e :
  name ∉ searched st →
  walked (mark name st) st2 vs ns (Raise e) →
  walked st st2 (name :: vs) ns (Raise e).
Proof.
  intros Hfresh W.
  pose proof (w_searched _ _ _ _ _ _ _ W) as S1. simpl in S1.
  split.
  - rewrite S1. set_solver.
  - rewrite (w_visits _ _ _ _ _ _ _ W). simpl. by rewrite <- app_assoc.
  - intros x [->|Hx]%elem_of_cons; [done|].
    apply (w_fresh _ _ _ _ _ _ _ W) in Hx. simpl in Hx. set_solver.
  - apply NoDup_cons. split; [|apply (w_nodup _ _ _ _ _ _ _ W)].
    intros Hx. apply (w_fresh _ _ _ _ _ _ _ W) in Hx. simpl in Hx. set_solver.
  - apply (w_transients _ _ _ _ _ _ _ W).
  - intros x Hx. destruct (w_included _ _ _ _ _ _ _ W x Hx).
    split; [set_solver|done].
  - apply (w_included_nodup _ _ _ _ _ _ _ W).
  - intros e' He'.
    destruct (w_raise _ _ _ _ _ _ _ W e' He') as (k & ? & ? & ?).
    exists k. split; [done|]. split; [set_solver|done].
  - intros He. discriminate.
  - intros He. discriminate.
Qed.

(** A visit of an eligible name whose requirement loop returned: the
    package of the name is appended after everything the loop appended. *)
Lemma walked_enter_return name package st st2 vs ns :
  name ∉ searched st →
  name ∉ UNSAFE_PACKAGES →
  packages !! name = Some package →
  compatible package = true →
  walked (mark name st) st2 vs ns (Return tt) →
  (∀ x, x ∈ vs →
     ∃ dep, dep ∈ Package.requires package ∧
            rtc follows (Dependency.name dep) x) →
  (∀ dep, dep ∈ Package.requires package →
     Dependency.name dep ∈ searched st2) →
  walked st (include package st2) (name :: vs) (ns ++ [name]) (Return tt).
Proof.
  intros Hfresh Hsafe Hpkg Hcomp W Hreach Hdeps.
  pose proof (w_searched _ _ _ _ _ _ _ W) as S1. simpl in S1.
  assert (Hel : eligible name) by (split; eauto).
  assert (Hnvs : name ∉ vs).
  { intros Hx. apply (w_fresh _ _ _ _ _ _ _ W) in Hx. simpl in Hx. set_solver. }
  assert (Hedge : ∀ y, edge name y → y ∈ searched st2).
  { intros y (p' & dep & Hp' & Hd & <-). rewrite Hpkg in Hp'.
    injection Hp' as <-. by apply Hdeps. }
  split; simpl.
  - rewrite S1. set_solver.
  - rewrite (w_visits _ _ _ _ _ _ _ W). simpl. by rewrite <- app_assoc.
  - intros x [->|Hx]%elem_of_cons; [done|].
    apply (w_fresh _ _ _ _ _ _ _ W) in Hx. simpl in Hx. set_solver.
  - apply NoDup_cons. split; [done|apply (w_nodup _ _ _ _ _ _ _ W)].
  - destruct (w_transients _ _ _ _ _ _ _ W) as (new & T & F). simpl in T.
    exists (new ++ [package]). split.
    + by rewrite T, app_assoc.
    + apply Forall2_app; [done|]. by repeat constructor.
  - intros x [Hx|Hx]%elem_of_app.
    + destruct (w_included _ _ _ _ _ _ _ W x Hx). split; [set_solver|done].
    + apply list_elem_of_singleton in Hx as ->. split; [set_solver|done].
  - apply NoDup_app. split; [apply (w_included_nodup _ _ _ _ _ _ _ W)|].
    split; [|apply NoDup_singleton].
    intros x Hx ->%list_elem_of_singleton.
    by apply (w_included _ _ _ _ _ _ _ W) in Hx as [Hx _].
  - intros e He. discriminate.
  - intros _ x [->|Hx]%elem_of_cons.
    + split; [by rewrite Hpkg|]. intros _. split; [set_solver|done].
    + destruct (w_return _ _ _ _ _ _ _ W eq_refl x Hx) as [Hm He].
      split; [done|]. intros Hx'. destruct (He Hx') as [Hns Hcl].
      split; [set_solver|done].
  - intros _ i x y Hi Hxy.
    apply lookup_app_Some in Hi as [Hi|[Hlen Hi]].
    + destruct (w_order _ _ _ _ _ _ _ W eq_refl i x y Hi Hxy)
        as [Hy|[[Hy Hd]|[Hy Hp]]].
      * simpl in Hy. apply elem_of_union in Hy as [Hy|Hy]; [|by left].
        apply elem_of_singleton in Hy as ->.
        right; right. split; [set_solver|].
        apply list_elem_of_lookup_2 in Hi.
        apply (w_included _ _ _ _ _ _ _ W) in Hi as [Hi _].
        destruct (Hreach x Hi) as (dep & Hdep & Hpath).
        eapply rtc_l; [|exact Hpath]. split; [done|].
        exists package, dep. done.
      * right; left. split; [set_solver|]. intros Hy'.
        destruct (Hd Hy') as (j & Hj & Hnj). exists j. split; [done|].
        by apply lookup_app_l_Some.
      * right; right. split; [set_solver|done].
    + apply list_lookup_singleton_Some in Hi as [Hi <-].
      assert (i = length ns) as -> by lia.
      specialize (Hedge y Hxy). rewrite S1 in Hedge.
      apply elem_of_union in Hedge as [Hy|Hy].
      * apply elem_of_union in Hy as [Hy|Hy]; [|by left].
        apply elem_of_singleton in Hy as ->.
        right; right. split; [set_solver|done].
      * apply elem_of_list_to_set in Hy.
        right; left. split; [set_solver|]. intros Hy'.
        destruct (w_return _ _ _ _ _ _ _ W eq_refl y Hy) as [_ He].
        destruct (He Hy') as [Hns _].
        apply list_elem_of_lookup in Hns as [j Hj]. exists j.
        split; [by apply lookup_lt_Some in Hj|by apply lookup_app_l_Some].
Qed.

Lemma for_requires_walked rec :
  visit_spec rec →
  ∀ deps st st' r,
    for_requires rec deps st = (st', r) → r ≠ OutOfFuel →
    ∃ vs ns, walked st st' vs ns r ∧
      (∀ x, x ∈ vs →
         ∃ dep, dep ∈ deps ∧ rtc follows (Dependency.name dep) x) ∧
      (r = Return tt →
         ∀ dep, dep ∈ deps → Dependency.name dep ∈ searched st').
Proof.
  intros Hrec deps. induction deps as [|dep rest IH]; intros st st' r Hrun Hr.
  - simpl in Hrun. injection Hrun as <- <-. exists [], [].
    split; [apply walked_nil|]. split.
    + intros x Hx. by apply elem_of_nil in Hx.
    + intros _ dep Hdep. by apply elem_of_nil in Hdep.
  - simpl in Hrun. case_bool_decide as Hseen.
    + destruct (IH _ _ _ Hrun Hr) as (vs & ns & W & Hreach & Hdeps).
      exists vs, ns. split; [done|]. split.
      * intros x Hx. destruct (Hreach x Hx) as (d & Hd & Hp).
        exists d. split; [by right|done].
      * intros Hret d [->|Hd]%elem_of_cons; [|by apply Hdeps].
        rewrite (w_searched _ _ _ _ _ _ _ W). set_solver.
    + destruct (rec (Dependency.name dep) st) as [st1 r1] eqn:Hcall.
      destruct r1 as [[]|e|].
      * destruct (Hrec _ _ _ _ Hseen Hcall) as (vs1 & ns1 & W1 & Hreach1);
          [done|].
        destruct (IH _ _ _ Hrun Hr) as (vs2 & ns2 & W2 & Hreach2 & Hdeps2).
        exists ((Dependency.name dep :: vs1) ++ vs2), (ns1 ++ ns2).
        split; [by eapply walked_seq|]. split.
        -- intros x [Hx|Hx]%elem_of_app.
           ++ exists dep. split; [by left|].
              apply elem_of_cons in Hx as [->|Hx]; [done|by apply Hreach1].
           ++ destruct (Hreach2 x Hx) as (d & Hd & Hp).
              exists d. split; [by right|done].
        -- intros Hret d [->|Hd]%elem_of_cons; [|by apply Hdeps2].
           rewrite (w_searched _ _ _ _ _ _ _ W2).
           rewrite (w_searched _ _ _ _ _ _ _ W1). set_solver.
      * injection Hrun as <- <-.
        destruct (Hrec _ _ _ _ Hseen Hcall) as (vs1 & ns1 & W1 & Hreach1);
          [done|].
        exists (Dependency.name dep :: vs1), ns1. split; [done|]. split.
        -- intros x Hx. exists dep. split; [by left|].
           apply elem_of_cons in Hx as [->|Hx]; [done|by apply Hreach1].
        -- intros Hret. discriminate.
      * injection Hrun as <- <-. done.
Qed.

Lemma find_deps_of_deps_walked fuel :
  visit_spec (find_deps_of_deps fuel).
Proof.
  induction fuel as [|fuel IH]; intros name st st' r Hfresh Hrun Hr.
  - simpl in Hrun. injection Hrun as <- <-. done.
  - simpl in Hrun. case_bool_decide as Hunsafe.
    { injection Hrun as <- <-. exists [], []. split.
      - apply walked_visit_skip; [done| |by left]. by intros [? _].
      - intros x Hx. by apply elem_of_nil in Hx. }
    destruct (packages !! name) as [package|] eqn:Hpkg; last first.
    { case_bool_decide as Ham; injection Hrun as <- <-; exists [], [].
      - split.
        + apply walked_visit_skip; [done| |by right].
          intros [_ (p & Hp & _)]. congruence.
        + intros x Hx. by apply elem_of_nil in Hx.
      - split.
        + by apply walked_visit_missing.
        + intros x Hx. by apply elem_of_nil in Hx. }
    destruct (python_ok package) eqn:Hpy; simpl in Hrun; last first.
    { injection Hrun as <- <-. exists [], []. split.
      - apply walked_visit_skip; [done| |congruence].
        intros [_ (p & Hp & Hc)]. apply compatible_split in Hc as [Hc _].
        congruence.
      - intros x Hx. by apply elem_of_nil in Hx. }
    destruct (platform_ok package) eqn:Hpl; simpl in Hrun; last first.
    { injection Hrun as <- <-. exists [], []. split.
      - apply walked_visit_skip; [done| |congruence].
        intros [_ (p & Hp & Hc)]. apply compatible_split in Hc as [_ Hc].
        congruence.
      - intros x Hx. by apply elem_of_nil in Hx. }
    assert (Hcomp : compatible package = true) by by apply compatible_split.
    destruct (for_requires _ (Package.requires package) (mark name st))
      as [st2 r2] eqn:Hloop.
    assert (Hstep : ∀ x dep, dep ∈ Package.requires package →
              rtc follows (Dependency.name dep) x → rtc follows name x).
    { intros x dep Hdep Hpath. eapply rtc_l; [|exact Hpath].
      split; [split; eauto|]. exists package, dep. done. }
    destruct r2 as [[]|e|]; injection Hrun as <- <-.
    + destruct (for_requires_walked _ IH _ _ _ _ Hloop)
        as (vs & ns & W & Hreach & Hdeps); [done|].
      exists vs, (ns ++ [name]). split.
      * eapply walked_enter_return; eauto.
      * intros x Hx. destruct (Hreach x Hx) as (dep & Hdep & Hpath). eauto.
    + destruct (for_requires_walked _ IH _ _ _ _ Hloop)
        as (vs & ns & W & Hreach & Hdeps); [done|].
      exists vs, ns. split.
      * by apply walked_enter_raise.
      * intros x Hx. destruct (Hreach x Hx) as (dep & Hdep & Hpath). eauto.
    + done.
Qed.

(** *** One call of [find_deps_of_deps], case by case *)

Lemma find_deps_of_deps_unsafe fuel name st :
  name ∈ UNSAFE_PACKAGES →
  find_deps_of_deps (S fuel) name st = (mark name st, Return tt).
Proof. intros Hun. simpl. by rewrite bool_decide_eq_true_2. Qed.

Lemma find_deps_of_deps_tolerated fuel name st :
  name ∉ UNSAFE_PACKAGES → packages !! name = None →
  name ∈ allow_missing →
  find_deps_of_deps (S fuel) name st = (mark name st, Return tt).
Proof.
  intros Hun Hnone Ham. simpl.
  by rewrite bool_decide_eq_false_2, Hnone, bool_decide_eq_true_2.
Qed.

Lemma find_deps_of_deps_missing fuel name st :
  name ∉ UNSAFE_PACKAGES → packages !! name = None →
  name ∉ allow_missing →
  find_deps_of_deps (S fuel) name st = (mark name st, Raise (KeyError name)).
Proof.
  intros Hun Hnone Ham. simpl.
  by rewrite bool_decide_eq_false_2, Hnone, bool_decide_eq_false_2.
Qed.

Lemma find_deps_of_deps_incompatible fuel name st package :
  name ∉ UNSAFE_PACKAGES → packages !! name = Some package →
  compatible package = false →
  find_deps_of_deps (S fuel) name st = (mark name st, Return tt).
Proof.
  intros Hun Hpkg Hc. simpl. rewrite bool_decide_eq_false_2, Hpkg by done.
  unfold compatible in Hc. destruct (python_ok package); simpl in *; [|done].
  by rewrite Hc.
Qed.

Lemma find_deps_of_deps_eligible fuel name st package :
  name ∉ UNSAFE_PACKAGES → packages !! name = Some package →
  compatible package = true →
  find_deps_of_deps (S fuel) name st
  = match for_requires (find_deps_of_deps fuel) (Package.requires package)
            (mark name st) with
    | (st', Return _) => (include package st', Return tt)
    | failed => failed
    end.
Proof.
  intros Hun Hpkg [Hpy Hpl]%compatible_split. simpl.
  by rewrite bool_decide_eq_false_2, Hpkg, Hpy, Hpl.
Qed.

Lemma for_requires_seen rec dep rest st :
  Dependency.name dep ∈ searched st →
  for_requires rec (dep :: rest) st = for_requires rec rest st.
Proof. intros Hseen. simpl. by rewrite bool_decide_eq_true_2. Qed.

Lemma for_requires_unseen rec dep rest st :
  Dependency.name dep ∉ searched st →
  for_requires rec (dep :: rest) st
  = match rec (Dependency.name dep) st with
    | (st', Return _) => for_requires rec rest st'
    | failed => failed
    end.
Proof. intros Hseen. simpl. by rewrite bool_decide_eq_false_2. Qed.

(** *** Termination: [fuel_bound] is enough *)

Lemma known_names_spec x :
  x ∈ known_names packages ↔
  ∃ k package, packages !! k = Some package ∧
    (x = k ∨ x = Package.name package ∨
     ∃ dep, dep ∈ Package.requires package ∧ Dependency.name dep = x).
Proof.
  unfold known_names. rewrite elem_of_list_to_set, list_elem_of_In, in_flat_map.
  split.
  - intros ([k package] & Hin & Hx). exists k, package.
    apply list_elem_of_In, elem_of_map_to_list in Hin. split; [done|].
    simpl in Hx. destruct Hx as [<-|[<-|Hx]]; [by left|by right; left|].
    right; right. apply in_map_iff in Hx as (dep & <- & Hdep).
    exists dep. by rewrite list_elem_of_In.
  - intros (k & package & Hk & Hx). exists (k, package). split.
    + by apply list_elem_of_In, elem_of_map_to_list.
    + simpl. destruct Hx as [->|[->|(dep & Hdep & <-)]]; [by left|by right; left|].
      right; right. apply in_map. by apply list_elem_of_In.
Qed.

Lemma for_requires_searched_mono rec deps st :
  (∀ name st, searched st ⊆ searched (rec name st).1) →
  searched st ⊆ searched (for_requires rec deps st).1.
Proof.
  intros Hrec. revert st. induction deps as [|dep rest IH]; intros st; simpl.
  - done.
  - case_bool_decide; [apply IH|].
    specialize (Hrec (Dependency.name dep) st).
    destruct (rec (Dependency.name dep) st) as [st1 [[]|e|]]; simpl in *;
      [|done|done].
    etrans; [exact Hrec|apply IH].
Qed.

Lemma find_deps_of_deps_searched_mono fuel name st :
  searched st ⊆ searched (find_deps_of_deps fuel name st).1.
Proof.
  revert name st. induction fuel as [|fuel IH]; intros name st; simpl; [done|].
  assert (Hmark : searched st ⊆ searched (mark name st)) by (simpl; set_solver).
  repeat (case_bool_decide || case_match); simpl; try done.
  all: match goal with
       | H : for_requires ?rec ?deps ?s = (?s', _) |- _ =>
           pose proof (for_requires_searched_mono rec deps s IH) as Hloop;
           rewrite H in Hloop; simpl in Hloop
       end.
  all: set_solver.
Qed.

Lemma for_requires_total rec fuel deps st :
  (∀ name st,
     name ∈ known_names packages → name ∉ searched st →
     size (known_names packages ∖ searched st) ≤ fuel →
     (rec name st).2 ≠ OutOfFuel) →
  (∀ name st, searched st ⊆ searched (rec name st).1) →
  (∀ dep, dep ∈ deps → Dependency.name dep ∈ known_names packages) →
  size (known_names packages ∖ searched st) ≤ fuel →
  (for_requires rec deps st).2 ≠ OutOfFuel.
Proof.
  intros Hrec Hmono. revert st.
  induction deps as [|dep rest IH]; intros st Hknown Hsize; simpl; [done|].
  assert (Hrest : ∀ d, d ∈ rest → Dependency.name d ∈ known_names packages).
  { intros d Hd. apply Hknown. by right. }
  case_bool_decide as Hseen; [by apply IH|].
  specialize (Hrec (Dependency.name dep) st (Hknown dep ltac:(by left))
                Hseen Hsize).
  specialize (Hmono (Dependency.name dep) st).
  destruct (rec (Dependency.name dep) st) as [st1 [[]|e|]]; simpl in *;
    [|done|done].
  apply IH; [done|].
  etrans; [|exact Hsize]. apply subseteq_size. set_solver.
Qed.

Lemma find_deps_of_deps_total fuel name st :
  name ∈ known_names packages → name ∉ searched st →
  size (known_names packages ∖ searched st) ≤ fuel →
  (find_deps_of_deps fuel name st).2 ≠ OutOfFuel.
Proof.
  revert name st. induction fuel as [|fuel IH]; intros name st Hin Hfresh Hsize.
  - exfalso.
    assert (Hsub : ({[name]} : gset string)
                     ⊆ known_names packages ∖ searched st) by set_solver.
    apply subseteq_size in Hsub. rewrite size_singleton in Hsub. lia.
  - simpl. case_bool_decide; [done|].
    destruct (packages !! name) as [package|] eqn:Hpkg;
      [|by case_bool_decide].
    destruct (python_ok package); simpl; [|done].
    destruct (platform_ok package); simpl; [|done].
    assert (Hloop : (for_requires (find_deps_of_deps fuel)
                       (Package.requires package) (mark name st)).2
                    ≠ OutOfFuel).
    { apply (for_requires_total _ fuel); [exact IH| | |].
      - intros n s. apply find_deps_of_deps_searched_mono.
      - intros dep Hdep. apply known_names_spec. exists name, package.
        split; [done|]. right; right. by exists dep.
      - assert (Hlt : size (known_names packages ∖ searched (mark name st))
                      < size (known_names packages ∖ searched st)).
        { apply subset_size. split; [simpl; set_solver|]. intros Hsub.
          assert (Hn : name ∈ known_names packages ∖ searched (mark name st))
            by (apply Hsub; set_solver).
          simpl in Hn. set_solver. }
        lia. }
    destruct (for_requires _ _ _) as [st2 [[]|e|]]; simpl in *; done.
Qed.

(** More fuel does not change the result of a call that had enough. *)
Lemma for_requires_fuel_mono rec rec' deps st st' r :
  (∀ name st st' r,
     rec name st = (st', r) → r ≠ OutOfFuel → rec' name st = (st', r)) →
  for_requires rec deps st = (st', r) → r ≠ OutOfFuel →
  for_requires rec' deps st = (st', r).
Proof.
  intros Hrec. revert st. induction deps as [|dep rest IH]; intros st; simpl;
    [done|].
  case_bool_decide; [apply IH|].
  destruct (rec (Dependency.name dep) st) as [st1 r1] eqn:Hcall.
  intros Hrun Hr.
  destruct r1 as [[]|e|].
  - rewrite (Hrec _ _ _ _ Hcall) by done. by apply IH.
  - rewrite (Hrec _ _ _ _ Hcall) by done. done.
  - injection Hrun as <- <-. done.
Qed.

Lemma find_deps_of_deps_fuel_mono fuel fuel' name st st' r :
  fuel ≤ fuel' →
  find_deps_of_deps fuel name st = (st', r) → r ≠ OutOfFuel →
  find_deps_of_deps fuel' name st = (st', r).
Proof.
  revert fuel' name st st' r.
  induction fuel as [|fuel IH]; intros fuel' name st st' r Hle Hrun Hr.
  - simpl in Hrun. injection Hrun as <- <-. done.
  - destruct fuel' as [|fuel']; [lia|]. simpl in *.
    case_bool_decide; [done|].
    destruct (packages !! name) as [package|]; [|done].
    destruct (python_ok package); simpl in *; [|done].
    destruct (platform_ok package); simpl in *; [|done].
    destruct (for_requires (find_deps_of_deps fuel) _ _)
      as [st2 r2] eqn:Hloop.
    assert (r2 ≠ OutOfFuel).
    { destruct r2 as [[]|e|]; [done|done|]. injection Hrun as <- <-. done. }
    erewrite for_requires_fuel_mono; [exact Hrun| |exact Hloop|done].
    intros n s s' r' Hcall Hr'. apply (IH fuel'); [lia|done|done].
Qed.

(** *** The whole walk of one call of [identify_transients] *)

Lemma traverse_missing root :
  packages !! root = None →
  traverse packages root allow_missing
  = (initial_state, Raise (KeyError root)).
Proof. intros Hroot. unfold traverse. by rewrite Hroot. Qed.

Lemma traverse_spec root package :
  packages !! root = Some package →
  ∃ st' r vs ns,
    traverse packages root allow_missing = (st', r) ∧ r ≠ OutOfFuel ∧
    walked initial_state st' (Package.name package :: vs) ns r ∧
    (∀ x, x ∈ vs → rtc follows (Package.name package) x) ∧
    Forall2 (λ x q, packages !! x = Some q) ns (transients st').
Proof.
  intros Hroot. unfold traverse. rewrite Hroot.
  destruct (find_deps_of_deps (fuel_bound packages) (Package.name package)
              initial_state) as [st' r] eqn:Hrun.
  assert (Hr : r ≠ OutOfFuel).
  { pose proof (find_deps_of_deps_total (fuel_bound packages)
                  (Package.name package) initial_state) as Htot.
    rewrite Hrun in Htot. apply Htot.
    - apply known_names_spec. exists root, package. split; [done|].
      right; by left.
    - simpl. set_solver.
    - unfold fuel_bound. apply subseteq_size. set_solver. }
  assert (Hfresh : Package.name package ∉ searched initial_state)
    by (simpl; set_solver).
  destruct (find_deps_of_deps_walked _ _ _ _ _ Hfresh Hrun Hr)
    as (vs & ns & W & Hreach).
  exists st', r, vs, ns. do 4 (split; [done|]).
  destruct (w_transients _ _ _ _ _ _ _ W) as (new & Hnew & Hall).
  simpl in Hnew. by rewrite Hnew.
Qed.

(** The walk never runs out of fuel. *)
Lemma traverse_total root :
  (traverse packages root allow_missing).2 ≠ OutOfFuel.
Proof.
  destruct (packages !! root) as [package|] eqn:Hroot.
  - destruct (traverse_spec root package Hroot)
      as (st' & r & vs & ns & -> & Hr & _). done.
  - by rewrite traverse_missing.
Qed.

(** The call never runs out of fuel. *)
Lemma identify_transients_total root :
  identify_transients packages root allow_missing ≠ OutOfFuel.
Proof.
  unfold identify_transients, on_key_error.
  pose proof (traverse_total root) as Htot.
  destruct (traverse packages root allow_missing) as [st [[]|e|]];
    simpl in Htot; [done| |done].
  destruct e; try done. case_bool_decide; [done|by case_match].
Qed.

(** Every name is entered at most once, and [visits] lists [searched]. *)
Lemma traverse_visits_searched root :
  NoDup (visits (traverse packages root allow_missing).1) ∧
  list_to_set (visits (traverse packages root allow_missing).1)
  = searched (traverse packages root allow_missing).1.
Proof.
  destruct (packages !! root) as [package|] eqn:Hroot.
  - destruct (traverse_spec root package Hroot)
      as (st' & r & vs & ns & -> & Hr & W & _). simpl.
    rewrite (w_visits _ _ _ _ _ _ _ W), (w_searched _ _ _ _ _ _ _ W). simpl.
    split; [apply (w_nodup _ _ _ _ _ _ _ W)|set_solver].
  - rewrite traverse_missing by done. simpl. split; [constructor|done].
Qed.

(** The only exception that leaves the walk is the [KeyError] of a lookup
    that failed, with the name that was looked up. *)
Lemma traverse_raise root e :
  (traverse packages root allow_missing).2 = Raise e →
  ∃ k, e = KeyError k ∧ packages !! k = None ∧
       (k = root ∨ is_Some (packages !! root) ∧ k ∉ allow_missing).
Proof.
  destruct (packages !! root) as [package|] eqn:Hroot.
  - destruct (traverse_spec root package Hroot)
      as (st' & r & vs & ns & -> & Hr & W & _). simpl. intros ->.
    destruct (w_raise _ _ _ _ _ _ _ W e eq_refl)
      as (k & -> & _ & Hnone & Ham & _).
    exists k. split; [done|]. split; [done|]. right. by split.
  - rewrite traverse_missing by done. simpl. intros [= <-].
    exists root. split; [done|]. split; [done|by left].
Qed.

(** A call that returns a list either took the unsafe-root exit of the
    handler or walked from the root's package to the end. *)
Lemma identify_transients_return root l :
  identify_transients packages root allow_missing = Return l →
  (root ∈ UNSAFE_PACKAGES ∧ l = []) ∨
  ∃ package st' vs ns,
    packages !! root = Some package ∧
    walked initial_state st' (Package.name package :: vs) ns (Return tt) ∧
    (∀ x, x ∈ vs → rtc follows (Package.name package) x) ∧
    Forall2 (λ x q, packages !! x = Some q) ns l.
Proof.
  unfold identify_transients, on_key_error. intros Hrun.
  destruct (packages !! root) as [package|] eqn:Hroot.
  - destruct (traverse_spec root package Hroot)
      as (st' & r & vs & ns & Ht & Hr & W & Hreach & Hall).
    rewrite Ht in Hrun. destruct r as [[]|e|]; [| |done].
    + injection Hrun as <-. right. by exists package, st', vs, ns.
    + destruct (w_raise _ _ _ _ _ _ _ W e eq_refl) as (k & -> & _).
      case_bool_decide; [|by case_match]. injection Hrun as <-. by left.
  - rewrite traverse_missing in Hrun by done.
    case_bool_decide; [|by case_match]. injection Hrun as <-. by left.
Qed.

(** A call that raises took the handler: the error is chosen by the root
    name, and either the root or a name met on the walk is missing. *)
Lemma identify_transients_raise root e :
  identify_transients packages root allow_missing = Raise e →
  on_key_error root = Raise e ∧
  (packages !! root = None ∨
   ∃ package k,
     packages !! root = Some package ∧
     rtc follows (Package.name package) k ∧
     packages !! k = None ∧ (k ∉ allow_missing) ∧ (k ∉ UNSAFE_PACKAGES)).
Proof.
  unfold identify_transients. intros Hrun.
  destruct (packages !! root) as [package|] eqn:Hroot.
  - destruct (traverse_spec root package Hroot)
      as (st' & r & vs & ns & Ht & Hr & W & Hreach & Hall).
    rewrite Ht in Hrun. destruct r as [[]|e'|]; [done| |done].
    destruct (w_raise _ _ _ _ _ _ _ W e' eq_refl)
      as (k & -> & Hk & Hnone & Ham & Hun).
    split; [done|]. right. exists package, k. repeat split; try done.
    apply elem_of_cons in Hk as [->|Hk]; [done|by apply Hreach].
  - rewrite traverse_missing in Hrun by done. split; [done|by left].
Qed.

(** Every package of the result was appended for an eligible name. *)
Lemma identify_transients_sound root l q :
  identify_transients packages root allow_missing = Return l →
  q ∈ l →
  ∃ x, packages !! x = Some q ∧ eligible x.
Proof.
  intros Hrun Hq.
  destruct (identify_transients_return root l Hrun)
    as [[_ ->]|(package & st' & vs & ns & Hroot & W & Hreach & Hall)].
  - by apply elem_of_nil in Hq.
  - apply list_elem_of_lookup in Hq as [i Hi].
    destruct (Forall2_lookup_r _ _ _ _ _ Hall Hi) as (x & Hx & Hxq).
    exists x. split; [done|].
    apply list_elem_of_lookup_2 in Hx.
    by apply (w_included _ _ _ _ _ _ _ W) in Hx as [_ Hx].
Qed.

(** Under [store_wf] the result holds no package twice. *)
Lemma identify_transients_nodup root l :
  store_wf packages →
  identify_transients packages root allow_missing = Return l →
  NoDup l.
Proof.
  intros Hwf Hrun.
  destruct (identify_transients_return root l Hrun)
    as [[_ ->]|(package & st' & vs & ns & Hroot & W & Hreach & Hall)].
  - constructor.
  - apply (NoDup_fmap_1 Package.name).
    replace (Package.name <$> l) with ns;
      [apply (w_included_nodup _ _ _ _ _ _ _ W)|].
    clear -Hall Hwf. induction Hall as [|x q ns l Hxq Hall IH]; [done|].
    simpl. f_equal; [|done]. symmetry. by apply Hwf.
Qed.

(** A walk that returned entered every name that the followed edges reach
    from its first name. *)
Lemma walked_reaches root st' vs ns x :
  walked initial_state st' (root :: vs) ns (Return tt) →
  rtc follows root x → x ∈ root :: vs.
Proof.
  intros W. revert x. apply rtc_ind_r; [by left|].
  intros y z _ [Hy Hyz] IHy.
  destruct (w_return _ _ _ _ _ _ _ W eq_refl y IHy) as [_ Hcl].
  destruct (Hcl Hy) as [_ Hcl'].
  specialize (Hcl' z Hyz).
  rewrite (w_searched _ _ _ _ _ _ _ W) in Hcl'. simpl in Hcl'.
  set_solver.
Qed.

(** Under [store_wf] every eligible name that the followed edges reach from
    the root has its package in the result. *)
Lemma identify_transients_complete root l x q :
  store_wf packages →
  identify_transients packages root allow_missing = Return l →
  rtc follows root x → eligible x → packages !! x = Some q →
  q ∈ l.
Proof.
  intros Hwf Hrun Hpath Hel Hxq.
  destruct (identify_transients_return root l Hrun)
    as [[Hun ->]|(package & st' & vs & ns & Hroot & W & Hreach & Hall)].
  - exfalso. apply rtc_inv in Hpath as [->|(y & [[Hs _] _] & _)].
    + by destruct Hel.
    + done.
  - rewrite (Hwf _ _ Hroot) in *.
    pose proof (walked_reaches _ _ _ _ _ W Hpath) as Hvisited.
    destruct (w_return _ _ _ _ _ _ _ W eq_refl x Hvisited) as [_ Hcl].
    destruct (Hcl Hel) as [Hns _].
    apply list_elem_of_lookup in Hns as [i Hi].
    destruct (Forall2_lookup_l _ _ _ _ _ Hall Hi) as (q' & Hq' & Hxq').
    rewrite Hxq in Hxq'. injection Hxq' as <-.
    by apply list_elem_of_lookup_2 in Hq'.
Qed.

(** Under [store_wf] a call fails as soon as the followed edges reach a
    name that is missing, not tolerated and not unsafe. *)
Lemma identify_transients_fails root k :
  store_wf packages → is_Some (packages !! root) →
  rtc follows root k →
  packages !! k = None → k ∉ allow_missing → k ∉ UNSAFE_PACKAGES →
  ∃ e, identify_transients packages root allow_missing = Raise e.
Proof.
  intros Hwf [package Hroot] Hpath Hnone Ham Hun.
  destruct (identify_transients packages root allow_missing)
    as [l|e|] eqn:Hrun; [|by exists e|by apply identify_transients_total in Hrun].
  exfalso.
  destruct (identify_transients_return root l Hrun)
    as [[Hroot_un ->]|(package' & st' & vs & ns & Hroot' & W & Hreach & Hall)].
  - apply rtc_inv in Hpath as [->|(y & [[Hs _] _] & _)]; [congruence|done].
  - rewrite (Hwf _ _ Hroot') in *.
    pose proof (walked_reaches _ _ _ _ _ W Hpath) as Hvisited.
    destruct (w_return _ _ _ _ _ _ _ W eq_refl k Hvisited) as [Hmiss _].
    destruct (Hmiss Hnone); done.
Qed.

End WalkFacts.

(** ** The two stores of the specification's examples *)

Section Examples.
Variable c : C.
Hypothesis c_allowed : allows c PLATFORM_VERSION = true.

Lemma sample_package_compatible name deps :
  compatible (sample_package name c deps) = true.
Proof. unfold compatible, python_ok, platform_ok. simpl. by rewrite c_allowed. Qed.

Ltac enter_eligible package :=
  rewrite (find_deps_of_deps_eligible _ _ _ _ _ package);
    [|done|reflexivity|apply sample_package_compatible];
  simpl Package.requires.
Ltac requirement_unseen :=
  rewrite for_requires_unseen by (simpl; set_solver); simpl Dependency.name.
Ltac requirement_seen :=
  rewrite for_requires_seen by (simpl; set_solver).

Lemma chain_store_result :
  "A" ∉ UNSAFE_PACKAGES → "B" ∉ UNSAFE_PACKAGES → "C" ∉ UNSAFE_PACKAGES →
  identify_transients (chain_store c) "A" []
  = Return [sample_package "C" c []; sample_package "B" c ["C"];
            sample_package "A" c ["B"]].
Proof.
  intros HA HB HC. unfold identify_transients, traverse.
  change (chain_store c !! "A") with (Some (sample_package "A" c ["B"])).
  change (fuel_bound (chain_store c)) with 3.
  cbv beta iota. simpl Package.name.
  enter_eligible (sample_package "A" c ["B"]). requirement_unseen.
  enter_eligible (sample_package "B" c ["C"]). requirement_unseen.
  enter_eligible (sample_package "C" c []).
  reflexivity.
Qed.

Lemma cycle_store_result :
  "A" ∉ UNSAFE_PACKAGES → "B" ∉ UNSAFE_PACKAGES →
  identify_transients (cycle_store c) "A" []
  = Return [sample_package "B" c ["A"]; sample_package "A" c ["B"]].
Proof.
  intros HA HB. unfold identify_transients, traverse.
  change (cycle_store c !! "A") with (Some (sample_package "A" c ["B"])).
  change (fuel_bound (cycle_store c)) with 2.
  cbv beta iota. simpl Package.name.
  enter_eligible (sample_package "A" c ["B"]). requirement_unseen.
  enter_eligible (sample_package "B" c ["A"]). requirement_seen.
  reflexivity.
Qed.

End Examples.

(** ** Properties of [identify_transients] *)

Lemma acyclic_by_rank (packages : PackageMap) (rank : string → nat) root :
  (∀ a b, edge packages a b → rank a < rank b) →
  acyclic_from packages root.
Proof.
  intros Hrank x _ Hcycle.
  assert (Hlt : ∀ a b, tc (edge packages) a b → rank a < rank b).
  { induction 1 as [a b Hab|a b d Hab _ IH].
    - by apply Hrank.
    - apply Hrank in Hab. lia. }
  apply Hlt in Hcycle. lia.
Qed.



Lemma follows_edge (packages : PackageMap) x y :
  rtc (follows packages) x y → rtc (edge packages) x y.
Proof. apply rtc_subrel. by intros a b [_ Hab]. Qed.

(** Where nothing is unsafe, incompatible or missing, the walk follows every
    edge. *)
Lemma clean_closed_eligible (packages : PackageMap) root x :
  clean_from packages root → closed_from packages root →
  rtc (edge packages) root x → eligible packages x.
Proof.
  intros Hclean Hclosed Hpath. destruct (Hclean x Hpath) as [Hsafe Hcomp].
  destruct (Hclosed x Hpath) as [package Hpkg].
  split; [done|]. exists package. split; [done|by apply Hcomp].
Qed.

Lemma clean_closed_follows (packages : PackageMap) root x :
  clean_from packages root → closed_from packages root →
  rtc (edge packages) root x → rtc (follows packages) root x.
Proof.
  intros Hclean Hclosed. revert x. apply rtc_ind_r; [done|].
  intros y z Hy Hyz IH. eapply rtc_r; [exact IH|].
  split; [by eapply clean_closed_eligible|done].
Qed.

(** C1 (amended): on a store whose keys are the package names, for a root
    that is present and from which the reachable part of the graph is
    acyclic, free of unsafe names and of incompatible packages, and (the
    amendment) in which every reachable name is present, the call with no
    tolerated names returns a list that holds exactly the packages of the
    names reachable from the root, each once, every package after the
    packages of its requirements; the chain store yields [C, B, A]. *)
Theorem identify_transients_postorder :
  (∀ (packages : PackageMap) root,
     store_wf packages → is_Some (packages !! root) →
     acyclic_from packages root → clean_from packages root →
     closed_from packages root →
     ∃ l, identify_transients packages root [] = Return l ∧
          (∀ q, q ∈ l ↔
                ∃ x, rtc (edge packages) root x ∧ packages !! x = Some q) ∧
          NoDup l ∧ postorder packages l) ∧
  (∀ c : C,
     allows c PLATFORM_VERSION = true →
     "A" ∉ UNSAFE_PACKAGES → "B" ∉ UNSAFE_PACKAGES → "C" ∉ UNSAFE_PACKAGES →
     identify_transients (chain_store c) "A" []
     = Return [sample_package "C" c []; sample_package "B" c ["C"];
               sample_package "A" c ["B"]]).
Proof.
  split; [|apply chain_store_result].
  intros packages root Hwf [package Hroot] Hacyclic Hclean Hclosed.
  destruct (identify_transients packages root []) as [l|e|] eqn:Hrun.
  - exists l. split; [done|].
    destruct (identify_transients_return _ _ _ _ Hrun)
      as [[Hun _]|(package' & st' & vs & ns & Hroot' & W & Hreach & Hall)].
    { by destruct (Hclean root (rtc_refl _ _)). }
    rewrite Hroot in Hroot'. injection Hroot' as <-.
    rewrite (Hwf _ _ Hroot) in *.
    assert (Hvisited : ∀ x, x ∈ root :: vs → rtc (edge packages) root x).
    { intros x [->|Hx]%elem_of_cons; [done|]. by apply follows_edge, Hreach. }
    split; [|split].
    + intros q. split.
      * intros [i Hi]%list_elem_of_lookup.
        destruct (Forall2_lookup_r _ _ _ _ _ Hall Hi) as (x & Hx & Hxq).
        exists x. split; [|done]. apply Hvisited.
        apply list_elem_of_lookup_2 in Hx.
        by apply (w_included _ _ _ _ _ _ _ W) in Hx as [Hx _].
      * intros (x & Hpath & Hxq).
        eapply identify_transients_complete; eauto.
        -- by eapply clean_closed_follows.
        -- by eapply clean_closed_eligible.
    + by eapply identify_transients_nodup.
    + intros i q dep Hi Hdep.
      destruct (Forall2_lookup_r _ _ _ _ _ Hall Hi) as (x & Hx & Hxq).
      assert (Hrx : rtc (edge packages) root x).
      { apply Hvisited. apply list_elem_of_lookup_2 in Hx.
        by apply (w_included _ _ _ _ _ _ _ W) in Hx as [Hx _]. }
      assert (Hxy : edge packages x (Dependency.name dep)).
      { by exists q, dep. }
      destruct (w_order _ _ _ _ _ _ _ W eq_refl i x _ Hx Hxy)
        as [Hy|[[Hy Hd]|[Hy Hp]]].
      * simpl in Hy. set_solver.
      * destruct Hd as (j & Hj & Hnj).
        { eapply clean_closed_eligible; [done|done|]. by eapply rtc_r. }
        destruct (Forall2_lookup_l _ _ _ _ _ Hall Hnj) as (qd & Hqd & Hyq).
        by exists j, qd.
      * exfalso. apply (Hacyclic x Hrx).
        eapply tc_rtc_r; [by apply tc_once|by apply follows_edge].
  - exfalso. destruct (identify_transients_raise _ _ _ _ Hrun)
      as [_ [Hnone|(package' & k & Hroot' & Hpath & Hnone & _)]].
    + congruence.
    + rewrite Hroot in Hroot'. injection Hroot' as <-.
      rewrite (Hwf _ _ Hroot) in Hpath.
      destruct (Hclosed k (follows_edge _ _ _ Hpath)) as [q Hq]. congruence.
  - by apply identify_transients_total in Hrun.
Qed.

(** C2: for every store, cyclic or not, the call terminates (the fuel
    bound is never exhausted and any larger fuel gives the same walk) and no
    name is entered twice in one call.  A cycle never makes the call raise:
    a raise means that the root, or a name that the followed edges reach
    from the root's package, is missing from the store, neither tolerated
    nor unsafe; and on a store that holds every name reachable from the
    root's package the call returns a list.  The two-package cycle yields
    [B, A]. *)
Theorem identify_transients_terminates :
  (∀ (packages : PackageMap) root allow_missing,
     identify_transients packages root allow_missing ≠ OutOfFuel ∧
     (∀ fuel package,
        packages !! root = Some package → fuel_bound packages ≤ fuel →
        find_deps_of_deps packages allow_missing fuel (Package.name package)
          initial_state
        = traverse packages root allow_missing) ∧
     (NoDup (visits (traverse packages root allow_missing).1) ∧
      list_to_set (visits (traverse packages root allow_missing).1)
      = searched (traverse packages root allow_missing).1) ∧
     (∀ e, identify_transients packages root allow_missing = Raise e →
           packages !! root = None ∨
           ∃ package k,
             packages !! root = Some package ∧
             rtc (follows packages) (Package.name package) k ∧
             packages !! k = None ∧ (k ∉ allow_missing) ∧
             (k ∉ UNSAFE_PACKAGES)) ∧
     (∀ package,
        packages !! root = Some package →
        closed_from packages (Package.name package) →
        ∃ l, identify_transients packages root allow_missing = Return l)) ∧
  (∀ c : C,
     allows c PLATFORM_VERSION = true →
     "A" ∉ UNSAFE_PACKAGES → "B" ∉ UNSAFE_PACKAGES →
     identify_transients (cycle_store c) "A" []
     = Return [sample_package "B" c ["A"]; sample_package "A" c ["B"]]).
Proof.
  split; [|apply cycle_store_result].
  intros packages root allow_missing. split; [|split; [|split; [|split]]].
  - apply identify_transients_total.
  - intros fuel package Hroot Hfuel.
    destruct (traverse_spec packages allow_missing root package Hroot)
      as (st' & r & vs & ns & Ht & Hr & _).
    rewrite Ht. unfold traverse in Ht. rewrite Hroot in Ht.
    by eapply find_deps_of_deps_fuel_mono.
  - apply traverse_visits_searched.
  - intros e Hrun. by destruct (identify_transients_raise _ _ _ _ Hrun).
  - intros package Hroot Hclosed.
    destruct (identify_transients packages root allow_missing)
      as [l|e|] eqn:Hrun; [by exists l| |].
    + exfalso. destruct (identify_transients_raise _ _ _ _ Hrun)
        as [_ [Hnone|(package' & k & Hroot' & Hpath & Hnone & _)]].
      * congruence.
      * rewrite Hroot in Hroot'. injection Hroot' as <-.
        destruct (Hclosed k (follows_edge _ _ _ Hpath)) as [q Hq].
        congruence.
    + by apply identify_transients_total in Hrun.
Qed.

Lemma has_version_delimiter_true root :
  has_version_delimiter root = true ↔
  ∃ delimiter,
    delimiter ∈ PEP508_VERSION_DELIMITERS ∧ contains delimiter root = true.
Proof.
  unfold has_version_delimiter. rewrite existsb_exists.
  by setoid_rewrite list_elem_of_In.
Qed.

Lemma has_version_delimiter_false root :
  has_version_delimiter root = false ↔
  ∀ delimiter,
    delimiter ∈ PEP508_VERSION_DELIMITERS → contains delimiter root = false.
Proof.
  rewrite <- not_true_iff_false, has_version_delimiter_true. split.
  - intros Hno delimiter Hin. apply not_true_iff_false. intros Hc.
    apply Hno. by exists delimiter.
  - intros Hall (delimiter & Hin & Hc). rewrite (Hall _ Hin) in Hc. done.
Qed.

(** C3: a root name that is missing from the store and not unsafe makes the
    call raise [LockedDepVersionConflictError] when the name contains one of
    the version delimiters and [LockedDepNotFoundError] when it contains
    none, whatever the tolerated names are. *)
Theorem missing_root_classified (packages : PackageMap) root allow_missing :
  packages !! root = None → root ∉ UNSAFE_PACKAGES →
  ((∃ delimiter, delimiter ∈ PEP508_VERSION_DELIMITERS ∧
                 contains delimiter root = true) →
   identify_transients packages root allow_missing
   = Raise (LockedDepVersionConflictError (version_conflict_msg root))) ∧
  ((∀ delimiter, delimiter ∈ PEP508_VERSION_DELIMITERS →
                 contains delimiter root = false) →
   identify_transients packages root allow_missing
   = Raise (LockedDepNotFoundError (not_found_msg root))).
Proof.
  intros Hnone Hun. unfold identify_transients.
  rewrite traverse_missing by done. unfold on_key_error.
  rewrite bool_decide_eq_false_2 by done. split.
  - intros Hd%has_version_delimiter_true. by rewrite Hd.
  - intros Hd%has_version_delimiter_false. by rewrite Hd.
Qed.

(** C10: the tolerance for missing names does not cover the root: a root
    that is missing, not unsafe and free of version delimiters makes the
    call raise [LockedDepNotFoundError] even when it is listed in
    [allow_missing], although the helper, entered with the same name,
    returns normally. *)
Theorem allow_missing_ignored_for_root (packages : PackageMap) root
    allow_missing :
  packages !! root = None → root ∉ UNSAFE_PACKAGES →
  has_version_delimiter root = false →
  root ∈ allow_missing →
  identify_transients packages root allow_missing
  = Raise (LockedDepNotFoundError (not_found_msg root)) ∧
  ∀ fuel st,
    find_deps_of_deps packages allow_missing (S fuel) root st
    = (mark root st, Return tt).
Proof.
  intros Hnone Hun Hd Ham. split.
  - unfold identify_transients. rewrite traverse_missing by done.
    unfold on_key_error. by rewrite bool_decide_eq_false_2, Hd.
  - intros fuel st. by apply find_deps_of_deps_tolerated.
Qed.



(** C5: an unsafe root makes the call return the empty list, whether the
    store has the name or not; a requirement with an unsafe name is only
    marked (the call for it returns at once, appends nothing, enters none of
    its requirements) and the loop goes on with the next requirement; no
    package with an unsafe name is in a result.  Unsafe names never make
    the call fail: from a root in the store the call returns a list, with
    the package of every eligible name reached, as soon as every missing
    name that the followed edges reach is unsafe or tolerated; and a call
    that raises has a root that is not unsafe, and either the root is
    missing or the followed edges reach a missing name that is neither
    unsafe nor tolerated. *)
Theorem unsafe_names_skipped (packages : PackageMap) allow_missing :
  store_wf packages →
  (∀ root, root ∈ UNSAFE_PACKAGES →
     identify_transients packages root allow_missing = Return []) ∧
  (∀ fuel name st, name ∈ UNSAFE_PACKAGES →
     find_deps_of_deps packages allow_missing (S fuel) name st
     = (mark name st, Return tt)) ∧
  (∀ fuel dep rest st,
     Dependency.name dep ∈ UNSAFE_PACKAGES →
     Dependency.name dep ∉ searched st →
     for_requires (find_deps_of_deps packages allow_missing (S fuel))
       (dep :: rest) st
     = for_requires (find_deps_of_deps packages allow_missing (S fuel))
         rest (mark (Dependency.name dep) st)) ∧
  (∀ root l q,
     identify_transients packages root allow_missing = Return l →
     q ∈ l → Package.name q ∉ UNSAFE_PACKAGES) ∧
  (∀ root,
     is_Some (packages !! root) →
     (∀ k, rtc (follows packages) root k → packages !! k = None →
           k ∈ UNSAFE_PACKAGES ∨ k ∈ allow_missing) →
     ∃ l, identify_transients packages root allow_missing = Return l ∧
          ∀ x q, rtc (follows packages) root x → eligible packages x →
                 packages !! x = Some q → q ∈ l) ∧
  (∀ root e,
     identify_transients packages root allow_missing = Raise e →
     (root ∉ UNSAFE_PACKAGES) ∧
     (packages !! root = None ∨
      ∃ k, rtc (follows packages) root k ∧ packages !! k = None ∧
           (k ∉ allow_missing) ∧ (k ∉ UNSAFE_PACKAGES))).
Proof.
  intros Hwf. split; [|split; [|split; [|split; [|split]]]].
  - intros root Hun. unfold identify_transients.
    destruct (packages !! root) as [package|] eqn:Hroot.
    + pose proof (traverse_total packages allow_missing root) as Htot.
      unfold traverse in *. rewrite Hroot in *. rewrite (Hwf _ _ Hroot) in *.
      destruct (fuel_bound packages) as [|fuel]; [done|].
      by rewrite find_deps_of_deps_unsafe.
    + rewrite traverse_missing by done. unfold on_key_error.
      by rewrite bool_decide_eq_true_2.
  - intros fuel name st Hun. by apply find_deps_of_deps_unsafe.
  - intros fuel dep rest st Hun Hseen.
    by rewrite for_requires_unseen, find_deps_of_deps_unsafe.
  - intros root l q Hrun Hq.
    destruct (identify_transients_sound _ _ _ _ _ Hrun Hq)
      as (x & Hxq & Hun & _).
    by rewrite (Hwf _ _ Hxq).
  - intros root [package Hroot] Htol.
    destruct (identify_transients packages root allow_missing)
      as [l|e|] eqn:Hrun.
    + exists l. split; [done|]. intros x q Hpath Hel Hxq.
      by eapply identify_transients_complete.
    + exfalso. destruct (identify_transients_raise _ _ _ _ Hrun)
        as [_ [Hnone|(package' & k & Hroot' & Hpath & Hnone & Ham & Hun)]].
      * congruence.
      * rewrite (Hwf _ _ Hroot') in Hpath.
        destruct (Htol k Hpath Hnone); done.
    + by apply identify_transients_total in Hrun.
  - intros root e Hrun.
    destruct (identify_transients_raise _ _ _ _ Hrun) as [Hhandler Hcause].
    split.
    + intros Hun. unfold on_key_error in Hhandler.
      by rewrite bool_decide_eq_true_2 in Hhandler.
    + destruct Hcause
        as [Hnone|(package & k & Hroot & Hpath & Hnone & Ham & Hun)];
        [by left|].
      right. exists k. by rewrite (Hwf _ _ Hroot) in Hpath.
Qed.

(** C6: a requirement whose name is missing from the store but listed in
    [allow_missing] is only marked: the call for it returns normally and the
    loop goes on with the next requirement.  When every missing name that
    the followed edges reach from a present root is tolerated (or unsafe),
    the whole call returns, and its result holds the package of every
    eligible name reached. *)
Theorem tolerated_missing_skipped (packages : PackageMap) allow_missing :
  store_wf packages →
  (∀ fuel name st,
     name ∉ UNSAFE_PACKAGES → packages !! name = None →
     name ∈ allow_missing →
     find_deps_of_deps packages allow_missing (S fuel) name st
     = (mark name st, Return tt)) ∧
  (∀ fuel dep rest st,
     Dependency.name dep ∉ UNSAFE_PACKAGES →
     packages !! Dependency.name dep = None →
     Dependency.name dep ∈ allow_missing →
     Dependency.name dep ∉ searched st →
     for_requires (find_deps_of_deps packages allow_missing (S fuel))
       (dep :: rest) st
     = for_requires (find_deps_of_deps packages allow_missing (S fuel))
         rest (mark (Dependency.name dep) st)) ∧
  (∀ root,
     is_Some (packages !! root) →
     (∀ k, rtc (follows packages) root k → packages !! k = None →
           k ∈ allow_missing ∨ k ∈ UNSAFE_PACKAGES) →
     ∃ l, identify_transients packages root allow_missing = Return l ∧
          ∀ x q, rtc (follows packages) root x → eligible packages x →
                 packages !! x = Some q → q ∈ l).
Proof.
  intros Hwf. split; [|split].
  - intros fuel name st Hun Hnone Ham. by apply find_deps_of_deps_tolerated.
  - intros fuel dep rest st Hun Hnone Ham Hseen.
    by rewrite for_requires_unseen, find_deps_of_deps_tolerated.
  - intros root [package Hroot] Htol.
    destruct (identify_transients packages root allow_missing)
      as [l|e|] eqn:Hrun.
    + exists l. split; [done|]. intros x q Hpath Hel Hxq.
      by eapply identify_transients_complete.
    + exfalso. destruct (identify_transients_raise _ _ _ _ Hrun)
        as [_ [Hnone|(package' & k & Hroot' & Hpath & Hnone & Ham & Hun)]].
      * congruence.
      * rewrite (Hwf _ _ Hroot') in Hpath.
        destruct (Htol k Hpath Hnone); done.
    + by apply identify_transients_total in Hrun.
Qed.

(** C7 (amended): when the followed edges reach, from a present root, a name
    that is missing from the store, not tolerated and not unsafe, the whole
    call fails.  The walk ends with the [KeyError] of a failed lookup of a
    requirement; that exception is caught by the handler of
    [identify_transients] and replaced there by the error chosen from the
    root name: [LockedDepVersionConflictError] if the root name contains a
    version delimiter, [LockedDepNotFoundError] otherwise, with a message
    that quotes the root name. *)
Theorem deep_lookup_failure_reported_for_root (packages : PackageMap) root
    allow_missing k :
  store_wf packages → is_Some (packages !! root) →
  rtc (follows packages) root k →
  packages !! k = None → k ∉ allow_missing → k ∉ UNSAFE_PACKAGES →
  (∃ k', (traverse packages root allow_missing).2 = Raise (KeyError k') ∧
         packages !! k' = None ∧ k' ∉ allow_missing ∧ k' ≠ root) ∧
  identify_transients packages root allow_missing
  = (if has_version_delimiter root
     then Raise (LockedDepVersionConflictError (version_conflict_msg root))
     else Raise (LockedDepNotFoundError (not_found_msg root))).
Proof.
  intros Hwf Hroot Hpath Hnone Ham Hun.
  destruct (identify_transients_fails _ _ _ _ Hwf Hroot Hpath Hnone Ham Hun)
    as [e Hrun].
  split.
  - unfold identify_transients in Hrun.
    destruct (traverse packages root allow_missing) as [st r] eqn:Ht.
    destruct r as [[]|e'|]; [done| |done].
    destruct (traverse_raise packages allow_missing root e')
      as (k' & -> & Hnone' & Hk'); [by rewrite Ht|].
    exists k'. split; [done|]. split; [done|].
    destruct Hroot as [package Hroot].
    destruct Hk' as [->|[_ Ham']]; [congruence|]. split; [done|].
    intros ->. congruence.
  - destruct (identify_transients_raise _ _ _ _ Hrun) as [Hhandler _].
    rewrite Hrun, <- Hhandler. unfold on_key_error in *.
    case_bool_decide; [done|]. by destruct (has_version_delimiter root).
Qed.

(** ** The dependency set builders *)

Lemma occurrences_app q l1 l2 :
  occurrences q (l1 ++ l2) = occurrences q l1 + occurrences q l2.
Proof. unfold occurrences. by rewrite filter_app, length_app. Qed.

Lemma occurrences_absent q l : q ∉ l → occurrences q l = 0.
Proof.
  unfold occurrences. induction l as [|x l IH]; [done|].
  intros Hq. apply not_elem_of_cons in Hq as [Hne Hq].
  rewrite filter_cons_False by done. by apply IH.
Qed.

Lemma occurrences_nodup q l : NoDup l → q ∈ l → occurrences q l = 1.
Proof.
  induction 1 as [|x l Hx Hnd IH]; intros Hq.
  - by apply elem_of_nil in Hq.
  - unfold occurrences. destruct (decide (x = q)) as [->|Hne].
    + rewrite filter_cons_True by done. simpl. f_equal.
      by apply occurrences_absent.
    + rewrite filter_cons_False by done. apply IH.
      apply elem_of_cons in Hq as [->|Hq]; done.
Qed.

(** The loop of the builders returns the lists of the roots one after the
    other, and returns only if every root's call returns. *)
Lemma extend_with_transients_spec {A : Type} (packages : PackageMap) poetry
    (key : A → string) roots dependencies l :
  extend_with_transients packages poetry key roots dependencies = Return l ↔
  ∃ ls,
    Forall2
      (λ root found,
         identify_transients packages (key root) [package_name poetry]
         = Return found) roots ls ∧
    l = dependencies ++ concat ls.
Proof.
  revert dependencies. induction roots as [|root rest IH]; intros acc; simpl.
  - split.
    + intros [= <-]. exists []. split; [constructor|]. by rewrite app_nil_r.
    + intros (ls & Hall & ->). apply Forall2_nil_inv_l in Hall as ->.
      simpl. by rewrite app_nil_r.
  - destruct (identify_transients packages (key root) [package_name poetry])
      as [found|e|] eqn:Hroot.
    + rewrite IH. split.
      * intros (ls & Hall & ->). exists (found :: ls).
        split; [by constructor|]. simpl. by rewrite app_assoc.
      * intros (ls & Hall & ->).
        apply Forall2_cons_inv_l in Hall as (found' & ls' & Hf & Hall & ->).
        rewrite Hroot in Hf. injection Hf as <-.
        exists ls'. split; [done|]. simpl. by rewrite app_assoc.
    + split; [done|]. intros (ls & Hall & _).
      apply Forall2_cons_inv_l in Hall as (found' & ls' & Hf & _).
      congruence.
    + split; [done|]. intros (ls & Hall & _).
      apply Forall2_cons_inv_l in Hall as (found' & ls' & Hf & _).
      congruence.
Qed.

Lemma lookup_all_spec (packages : PackageMap) items found :
  lookup_all packages items = Return found ↔
  Forall2 (λ item package, packages !! Dependency.name item = Some package)
    items found.
Proof.
  revert found. induction items as [|item rest IH]; intros found; simpl.
  - split.
    + intros [= <-]. constructor.
    + intros ->%Forall2_nil_inv_l. done.
  - destruct (packages !! Dependency.name item) as [package|] eqn:Hitem.
    + destruct (lookup_all packages rest) as [found'|e|].
      * split.
        -- intros [= <-]. constructor; [done|]. by apply IH.
        -- intros (package' & rest' & Hp & Hrest & ->)%Forall2_cons_inv_l.
           apply IH in Hrest. congruence.
      * split; [done|].
        intros (package' & rest' & _ & Hrest & _)%Forall2_cons_inv_l.
        by apply IH in Hrest.
      * split; [done|].
        intros (package' & rest' & _ & Hrest & _)%Forall2_cons_inv_l.
        by apply IH in Hrest.
    + split; [done|].
      intros (package' & rest' & Hp & _)%Forall2_cons_inv_l. congruence.
Qed.

Lemma collect_extras_spec (packages : PackageMap) venv poetry extras
    extra_dependencies found :
  collect_extras venv poetry packages extras extra_dependencies
  = Return found ↔
  ∃ groups,
    Forall2
      (λ extra group,
         ∃ items,
           package_extras poetry !! extra = Some items ∧
           Forall2
             (λ item package,
                packages !! Dependency.name item = Some package)
             items group) extras groups ∧
    found = extra_dependencies ++ concat groups.
Proof.
  revert extra_dependencies.
  induction extras as [|extra rest IH]; intros acc; simpl.
  - split.
    + intros [= <-]. exists []. split; [constructor|]. by rewrite app_nil_r.
    + intros (groups & ->%Forall2_nil_inv_l & ->). simpl.
      by rewrite app_nil_r.
  - destruct (package_extras poetry !! extra) as [items|] eqn:Hextra.
    + destruct (lookup_all packages items) as [group|e|] eqn:Hitems.
      * apply lookup_all_spec in Hitems. rewrite IH. split.
        -- intros (groups & Hall & ->). exists (group :: groups). split.
           ++ constructor; [by exists items|done].
           ++ simpl. by rewrite app_assoc.
        -- intros (groups & Hall & ->).
           apply Forall2_cons_inv_l in Hall
             as (group' & groups' & (items' & Hextra' & Hgroup') & Hall & ->).
           rewrite Hextra in Hextra'. injection Hextra' as <-.
           apply lookup_all_spec in Hitems, Hgroup'.
           rewrite Hitems in Hgroup'. injection Hgroup' as <-.
           exists groups'. split; [done|]. simpl. by rewrite app_assoc.
      * split; [by destruct e|]. intros (groups & Hall & _).
        apply Forall2_cons_inv_l in Hall
          as (group' & groups' & (items' & Hextra' & Hgroup') & _).
        rewrite Hextra in Hextra'. injection Hextra' as <-.
        apply lookup_all_spec in Hgroup'. congruence.
      * split; [done|]. intros (groups & Hall & _).
        apply Forall2_cons_inv_l in Hall
          as (group' & groups' & (items' & Hextra' & Hgroup') & _).
        rewrite Hextra in Hextra'. injection Hextra' as <-.
        apply lookup_all_spec in Hgroup'. congruence.
    + split; [done|]. intros (groups & Hall & _).
      apply Forall2_cons_inv_l in Hall
        as (group' & groups' & (items' & Hextra' & _) & _).
      congruence.
Qed.

(** C8: each builder returns exactly the lists that [identify_transients]
    returns for its roots, one after the other, with nothing removed: the
    roots of [find_env_dependencies] are the locked dependencies, those of
    [find_dev_dependencies] the keys of the dev table, and those of
    [find_project_dependencies] the packages of the project's non-optional
    requirements followed by the packages listed by the extras of the
    environment.  For [find_env_dependencies] over two locked dependencies
    whose calls return [l1] and [l2]: the builder returns [l1 ++ l2], and
    the package of an eligible name that the followed edges reach from both
    roots stands once in [l1], once in [l2] and twice in the builder's
    list. *)
Theorem builders_do_not_deduplicate (packages : PackageMap) venv poetry :
  store_wf packages →
  (∀ l, find_env_dependencies venv poetry packages = Return l ↔
        ∃ ls,
          Forall2
            (λ dep found,
               identify_transients packages (lower dep) [package_name poetry]
               = Return found) (envconfig_locked_deps venv) ls ∧
          l = concat ls) ∧
  (∀ l, find_dev_dependencies poetry packages = Return l ↔
        ∃ ls,
          Forall2
            (λ dep_name found,
               identify_transients packages dep_name [package_name poetry]
               = Return found)
            (match pyproject_dev_dependencies poetry with
             | Some table => map fst table
             | None => []
             end) ls ∧
          l = concat ls) ∧
  (∀ l, find_project_dependencies venv poetry packages = Return l ↔
        ∃ base groups ls,
          Forall2
            (λ item package,
               packages !! Dependency.name item = Some package)
            (filter (λ item, Dependency.optional item = false)
               (package_requires poetry)) base ∧
          Forall2
            (λ extra group,
               ∃ items,
                 package_extras poetry !! extra = Some items ∧
                 Forall2
                   (λ item package,
                      packages !! Dependency.name item = Some package)
                   items group) (envconfig_extras venv) groups ∧
          Forall2
            (λ (dep : PoetryPackage) found,
               identify_transients packages (lower (Package.name dep))
                 [package_name poetry]
               = Return found) (base ++ concat groups) ls ∧
          l = concat ls) ∧
  (∀ r1 r2 l1 l2 x q,
     envconfig_locked_deps venv = [r1; r2] →
     identify_transients packages (lower r1) [package_name poetry]
     = Return l1 →
     identify_transients packages (lower r2) [package_name poetry]
     = Return l2 →
     rtc (follows packages) (lower r1) x →
     rtc (follows packages) (lower r2) x →
     eligible packages x → packages !! x = Some q →
     find_env_dependencies venv poetry packages = Return (l1 ++ l2) ∧
     occurrences q l1 = 1 ∧ occurrences q l2 = 1 ∧
     occurrences q (l1 ++ l2) = 2).
Proof.
  intros Hwf. split; [|split; [|split]].
  - intros l. unfold find_env_dependencies.
    by rewrite extend_with_transients_spec.
  - intros l. unfold find_dev_dependencies.
    by rewrite extend_with_transients_spec.
  - intros l. unfold find_project_dependencies. split.
    + destruct (lookup_all packages _) as [base| |] eqn:Hbase; [|done|done].
      destruct (collect_extras venv poetry packages _ _) as [extra| |]
        eqn:Hextra; [|done|done].
      apply lookup_all_spec in Hbase.
      apply collect_extras_spec in Hextra as (groups & Hgroups & ->).
      rewrite extend_with_transients_spec. intros (ls & Hall & ->).
      by exists base, groups, ls.
    + intros (base & groups & ls & Hbase & Hgroups & Hall & ->).
      apply lookup_all_spec in Hbase. rewrite Hbase.
      assert (Hextra : collect_extras venv poetry packages
                         (envconfig_extras venv) []
                       = Return ([] ++ concat groups)).
      { apply collect_extras_spec. by exists groups. }
      rewrite Hextra. apply extend_with_transients_spec. by exists ls.
  - intros r1 r2 l1 l2 x q Hdeps Hl1 Hl2 Hp1 Hp2 Hel Hxq.
    assert (Hq1 : occurrences q l1 = 1).
    { apply occurrences_nodup.
      - by eapply identify_transients_nodup.
      - by eapply identify_transients_complete. }
    assert (Hq2 : occurrences q l2 = 1).
    { apply occurrences_nodup.
      - by eapply identify_transients_nodup.
      - by eapply identify_transients_complete. }
    split; [|split; [done|split; [done|]]].
    + unfold find_env_dependencies. rewrite Hdeps. simpl.
      by rewrite Hl1, Hl2.
    + by rewrite occurrences_app, Hq1, Hq2.
Qed.

(** ** Further properties of [identify_transients] *)

(** On a store keyed by package name, a returned list holds exactly the
    packages of the eligible names that the followed edges reach from the
    root, whatever the shape of the graph. *)
Theorem identify_transients_exact (packages : PackageMap) root allow_missing l :
  store_wf packages →
  identify_transients packages root allow_missing = Return l →
  ∀ q, q ∈ l ↔
       ∃ x, rtc (follows packages) root x ∧ eligible packages x ∧
            packages !! x = Some q.
Proof.
  intros Hwf Hrun q. split.
  - intros Hq.
    destruct (identify_transients_return _ _ _ _ Hrun)
      as [[_ ->]|(package & st' & vs & ns & Hroot & W & Hreach & Hall)].
    { by apply elem_of_nil in Hq. }
    rewrite (Hwf _ _ Hroot) in *.
    apply list_elem_of_lookup in Hq as [i Hi].
    destruct (Forall2_lookup_r _ _ _ _ _ Hall Hi) as (x & Hx & Hxq).
    apply list_elem_of_lookup_2 in Hx.
    apply (w_included _ _ _ _ _ _ _ W) in Hx as [Hx Hel].
    exists x. split; [|done].
    apply elem_of_cons in Hx as [->|Hx]; [done|by apply Hreach].
  - intros (x & Hpath & Hel & Hxq). by eapply identify_transients_complete.
Qed.

(** On a store keyed by package name, a returned list holds no package
    twice and is at most as long as the store is large. *)
Theorem identify_transients_bounded (packages : PackageMap) root
    allow_missing l :
  store_wf packages →
  identify_transients packages root allow_missing = Return l →
  NoDup l ∧ length l ≤ size packages.
Proof.
  intros Hwf Hrun.
  pose proof (identify_transients_nodup _ _ _ _ Hwf Hrun) as Hnd.
  split; [done|].
  assert (Hnames : NoDup (Package.name <$> l)).
  { apply NoDup_fmap_2_strong; [|done].
    intros q1 q2 Hq1 Hq2 Hname.
    destruct (identify_transients_sound _ _ _ _ _ Hrun Hq1) as (x1 & H1 & _).
    destruct (identify_transients_sound _ _ _ _ _ Hrun Hq2) as (x2 & H2 & _).
    pose proof (Hwf _ _ H1) as E1. pose proof (Hwf _ _ H2) as E2.
    congruence. }
  rewrite <- (length_fmap Package.name), <- size_dom.
  rewrite <- (size_list_to_set (C:=gset string)) by done.
  apply subseteq_size. intros x [q [-> Hq]]%elem_of_list_to_set%list_elem_of_fmap.
  destruct (identify_transients_sound _ _ _ _ _ Hrun Hq) as (x & Hx & _).
  rewrite (Hwf _ _ Hx). apply elem_of_dom. by eexists.
Qed.

Lemma find_deps_of_deps_appends (packages : PackageMap) allow_missing fuel
    name st st' package :
  find_deps_of_deps packages allow_missing fuel name st = (st', Return tt) →
  packages !! name = Some package → eligible packages name →
  ∃ before, transients st' = before ++ [package].
Proof.
  intros Hrun Hpkg [Hun (package' & Hpkg' & Hc)].
  rewrite Hpkg in Hpkg'. injection Hpkg' as <-.
  destruct fuel as [|fuel]; [done|].
  rewrite (find_deps_of_deps_eligible _ _ _ _ _ package) in Hrun by done.
  destruct (for_requires _ _ _) as [st2 [[]|e|]]; [|done|done].
  injection Hrun as <-. by eexists.
Qed.

(** On a store keyed by package name, with the root in the store: a root
    that is not eligible (unsafe, or with an incompatible package) gives the
    empty list, with no error whatever the rest of the store holds; an
    eligible root is the last package of the list that the call returns. *)
Theorem identify_transients_root_last (packages : PackageMap) root
    allow_missing package :
  store_wf packages → packages !! root = Some package →
  (¬ eligible packages root →
   identify_transients packages root allow_missing = Return []) ∧
  (eligible packages root →
   ∀ l, identify_transients packages root allow_missing = Return l →
        last l = Some package).
Proof.
  intros Hwf Hroot. split.
  - intros Hne. unfold identify_transients.
    pose proof (traverse_total packages allow_missing root) as Htot.
    unfold traverse in *. rewrite Hroot in *. rewrite (Hwf _ _ Hroot) in *.
    destruct (fuel_bound packages) as [|fuel]; [done|].
    destruct (decide (root ∈ UNSAFE_PACKAGES)) as [Hun|Hun].
    + by rewrite find_deps_of_deps_unsafe.
    + destruct (compatible package) eqn:Hc.
      * exfalso. apply Hne. split; [done|]. by exists package.
      * by erewrite find_deps_of_deps_incompatible.
  - intros Hel l Hrun. unfold identify_transients, traverse in Hrun.
    rewrite Hroot, (Hwf _ _ Hroot) in Hrun.
    destruct (find_deps_of_deps _ _ _ _ _) as [st' r] eqn:Hcall.
    destruct r as [[]|e|].
    + injection Hrun as <-.
      destruct (find_deps_of_deps_appends _ _ _ _ _ _ _ Hcall Hroot Hel)
        as [before ->].
      apply last_snoc.
    + exfalso. destruct e; try done. unfold on_key_error in Hrun.
      destruct Hel as [Hun _]. rewrite bool_decide_eq_false_2 in Hrun by done.
      by destruct (has_version_delimiter root).
    + done.
Qed.

Lemma for_requires_tolerate_more rec rec' deps st st' :
  (∀ name st st',
     rec name st = (st', Return tt) → rec' name st = (st', Return tt)) →
  for_requires rec deps st = (st', Return tt) →
  for_requires rec' deps st = (st', Return tt).
Proof.
  intros Hrec. revert st. induction deps as [|dep rest IH]; intros st; simpl;
    [done|].
  case_bool_decide; [apply IH|].
  destruct (rec (Dependency.name dep) st) as [st1 r1] eqn:Hcall.
  destruct r1 as [[]|e|]; [|done|done].
  rewrite (Hrec _ _ _ Hcall). apply IH.
Qed.

Lemma find_deps_of_deps_tolerate_more (packages : PackageMap) allow_missing
    allow_missing' fuel name st st' :
  allow_missing ⊆ allow_missing' →
  find_deps_of_deps packages allow_missing fuel name st = (st', Return tt) →
  find_deps_of_deps packages allow_missing' fuel name st = (st', Return tt).
Proof.
  intros Hsub. revert name st st'.
  induction fuel as [|fuel IH]; intros name st st'; simpl; [done|].
  case_bool_decide; [done|].
  destruct (packages !! name) as [package|].
  - destruct (python_ok package); simpl; [|done].
    destruct (platform_ok package); simpl; [|done].
    destruct (for_requires (find_deps_of_deps packages allow_missing fuel)
                _ _) as [st2 r2] eqn:Hloop.
    destruct r2 as [[]|e|]; [|done|done].
    rewrite (for_requires_tolerate_more _ _ _ _ _ IH Hloop). done.
  - case_bool_decide as Ham; [|done].
    by rewrite bool_decide_eq_true_2 by auto.
Qed.

(** On a store keyed by package name, a call that returns a list returns
    the same list when more names are tolerated as missing. *)
Theorem identify_transients_tolerate_more (packages : PackageMap) root
    allow_missing allow_missing' l :
  store_wf packages → allow_missing ⊆ allow_missing' →
  identify_transients packages root allow_missing = Return l →
  identify_transients packages root allow_missing' = Return l.
Proof.
  intros Hwf Hsub Hrun.
  destruct (packages !! root) as [package|] eqn:Hroot.
  - destruct (decide (root ∈ UNSAFE_PACKAGES)) as [Hun|Hun].
    { assert (Hne : ¬ eligible packages root) by (by intros [? _]).
      destruct (identify_transients_root_last packages root allow_missing
                  package Hwf Hroot) as [Hnil _].
      destruct (identify_transients_root_last packages root allow_missing'
                  package Hwf Hroot) as [Hnil' _].
      rewrite Hnil in Hrun by done. injection Hrun as <-. by apply Hnil'. }
    unfold identify_transients, traverse in *. rewrite Hroot in *.
    destruct (find_deps_of_deps packages allow_missing _ _ _)
      as [st' r] eqn:Hcall.
    destruct r as [[]|e|].
    + by rewrite (find_deps_of_deps_tolerate_more _ _ _ _ _ _ _ Hsub Hcall).
    + exfalso. destruct e; try done. unfold on_key_error in Hrun.
      rewrite bool_decide_eq_false_2 in Hrun by done.
      by destruct (has_version_delimiter root).
    + done.
  - unfold identify_transients in *.
    rewrite traverse_missing in * by done. done.
Qed.

(** A call never lets a [KeyError] out: when it raises, the error is one of
    the two locked-dependency errors, built from the root name alone. *)
Theorem identify_transients_error_kinds (packages : PackageMap) root
    allow_missing e :
  identify_transients packages root allow_missing = Raise e →
  root ∉ UNSAFE_PACKAGES ∧
  (e = LockedDepVersionConflictError (version_conflict_msg root) ∧
   has_version_delimiter root = true ∨
   e = LockedDepNotFoundError (not_found_msg root) ∧
   has_version_delimiter root = false).
Proof.
  intros Hrun.
  destruct (identify_transients_raise _ _ _ _ Hrun) as [Hhandler _].
  unfold on_key_error in Hhandler.
  case_bool_decide; [done|]. split; [done|].
  destruct (has_version_delimiter root); injection Hhandler as <-; auto.
Qed.

Lemma for_requires_ext rec rec' deps st :
  (∀ dep st, dep ∈ deps →
     rec (Dependency.name dep) st = rec' (Dependency.name dep) st) →
  for_requires rec deps st = for_requires rec' deps st.
Proof.
  revert st. induction deps as [|dep rest IH]; intros st Hrec; simpl; [done|].
  assert (Hrest : ∀ d s, d ∈ rest →
            rec (Dependency.name d) s = rec' (Dependency.name d) s).
  { intros d s Hd. apply Hrec. by right. }
  case_bool_decide; [by apply IH|].
  rewrite <- (Hrec dep st) by by left.
  destruct (rec (Dependency.name dep) st) as [st1 [[]|e|]]; [|done|done].
  by apply IH.
Qed.

Lemma find_deps_of_deps_local (packages packages' : PackageMap) allow_missing
    fuel name st :
  (∀ x, rtc (edge packages) name x → packages !! x = packages' !! x) →
  find_deps_of_deps packages allow_missing fuel name st
  = find_deps_of_deps packages' allow_missing fuel name st.
Proof.
  revert name st. induction fuel as [|fuel IH]; intros name st Hagree; simpl;
    [done|].
  case_bool_decide; [done|].
  rewrite <- (Hagree name) by done.
  destruct (packages !! name) as [package|] eqn:Hpkg; [|done].
  destruct (python_ok package); simpl; [|done].
  destruct (platform_ok package); simpl; [|done].
  rewrite (for_requires_ext _ (find_deps_of_deps packages' allow_missing fuel));
    [done|].
  intros dep s Hdep. apply IH. intros x Hx. apply Hagree.
  eapply rtc_l; [|exact Hx]. by exists package, dep.
Qed.

(** On a store keyed by package name, the call depends only on the part of
    the store that the root reaches: a second store that agrees with the
    first on every name reachable from the root gives the same outcome. *)
Theorem identify_transients_local (packages packages' : PackageMap) root
    allow_missing :
  store_wf packages →
  (∀ x, rtc (edge packages) root x → packages !! x = packages' !! x) →
  identify_transients packages root allow_missing
  = identify_transients packages' root allow_missing.
Proof.
  intros Hwf Hagree.
  pose proof (traverse_total packages allow_missing root) as Htot.
  pose proof (traverse_total packages' allow_missing root) as Htot'.
  unfold identify_transients, traverse in *.
  rewrite <- (Hagree root) in * by done.
  destruct (packages !! root) as [package|] eqn:Hroot; [|done].
  rewrite (Hwf _ _ Hroot) in *.
  set (fuel := fuel_bound packages `max` fuel_bound packages').
  assert (H1 : find_deps_of_deps packages allow_missing (fuel_bound packages)
                 root initial_state
               = find_deps_of_deps packages allow_missing fuel root
                   initial_state).
  { destruct (find_deps_of_deps packages allow_missing (fuel_bound packages)
                root initial_state) as [st r] eqn:Hcall.
    symmetry. eapply find_deps_of_deps_fuel_mono; [|exact Hcall|done].
    unfold fuel. lia. }
  assert (H2 : find_deps_of_deps packages' allow_missing (fuel_bound packages')
                 root initial_state
               = find_deps_of_deps packages' allow_missing fuel root
                   initial_state).
  { destruct (find_deps_of_deps packages' allow_missing (fuel_bound packages')
                root initial_state) as [st r] eqn:Hcall.
    symmetry. eapply find_deps_of_deps_fuel_mono; [|exact Hcall|done].
    unfold fuel. lia. }
  by rewrite H1, H2, (find_deps_of_deps_local packages packages').
Qed.

(** On a store keyed by package name, the result of a call is closed
    under the call itself: for every package of a returned list, the call
    on the name of that package returns too, and its list holds that
    package and nothing outside the first list. *)
Theorem identify_transients_closed (packages : PackageMap) root allow_missing
    l q :
  store_wf packages →
  identify_transients packages root allow_missing = Return l →
  q ∈ l →
  ∃ l', identify_transients packages (Package.name q) allow_missing
        = Return l' ∧
        q ∈ l' ∧ l' ⊆ l.
Proof.
  intros Hwf Hrun Hq.
  apply (identify_transients_exact _ _ _ _ Hwf Hrun) in Hq
    as (x & Hpath & Hel & Hxq).
  rewrite (Hwf _ _ Hxq).
  destruct (identify_transients packages x allow_missing) as [l'|e|] eqn:Hsub.
  - exists l'. split; [done|]. split.
    + by eapply identify_transients_complete.
    + intros q' Hq'.
      apply (identify_transients_exact _ _ _ _ Hwf Hsub) in Hq'
        as (y & Hxy & Hy & Hyq).
      apply (identify_transients_exact _ _ _ _ Hwf Hrun).
      exists y. split; [by etrans|done].
  - exfalso.
    destruct (identify_transients_raise _ _ _ _ Hsub)
      as [_ [Hnone|(package & k & Hx & Hxk & Hnone & Ham & Hun)]];
      [congruence|].
    rewrite (Hwf _ _ Hx) in Hxk.
    assert (Hroot : is_Some (packages !! root)).
    { destruct (identify_transients_return _ _ _ _ Hrun)
        as [[_ ->]|(package' & _ & _ & _ & Hroot & _)]; [|by eexists].
      assert (Hnil : q ∈ ([] : list PoetryPackage)).
      { apply (identify_transients_exact _ _ _ _ Hwf Hrun). eauto. }
      by apply elem_of_nil in Hnil. }
    destruct (identify_transients_fails packages allow_missing root k)
      as [e' He']; try done; [by etrans|congruence].
  - by apply identify_transients_total in Hsub.
Qed.

(** ** Further properties of the builders *)

Lemma extend_with_transients_raise {A : Type} (packages : PackageMap) poetry
    (key : A → string) before root after dependencies ls e :
  Forall2
    (λ root found,
       identify_transients packages (key root) [package_name poetry]
       = Return found) before ls →
  identify_transients packages (key root) [package_name poetry] = Raise e →
  extend_with_transients packages poetry key (before ++ root :: after)
    dependencies
  = Raise e.
Proof.
  intros Hall Hroot. revert dependencies.
  induction Hall as [|r found before ls Hr Hall IH]; intros acc; simpl.
  - by rewrite Hroot.
  - rewrite Hr. apply IH.
Qed.

(** The environment and dev builders fail with the error of the first root
    whose call raises; the roots after it play no part. *)
Theorem builders_fail_at_first_error (packages : PackageMap) poetry :
  (∀ venv before root after ls e,
     envconfig_locked_deps venv = before ++ root :: after →
     Forall2
       (λ dep found,
          identify_transients packages (lower dep) [package_name poetry]
          = Return found) before ls →
     identify_transients packages (lower root) [package_name poetry]
     = Raise e →
     find_env_dependencies venv poetry packages = Raise e) ∧
  (∀ table before root after ls e,
     pyproject_dev_dependencies poetry = Some table →
     map fst table = before ++ root :: after →
     Forall2
       (λ dep_name found,
          identify_transients packages dep_name [package_name poetry]
          = Return found) before ls →
     identify_transients packages root [package_name poetry] = Raise e →
     find_dev_dependencies poetry packages = Raise e).
Proof.
  split.
  - intros venv before root after ls e Hdeps Hall Hroot.
    unfold find_env_dependencies. rewrite Hdeps.
    by eapply extend_with_transients_raise.
  - intros table before root after ls e Htable Hnames Hall Hroot.
    unfold find_dev_dependencies. rewrite Htable, Hnames.
    by eapply (extend_with_transients_raise _ _ (λ dep_name, dep_name)).
Qed.

Lemma extend_with_transients_keys {A B : Type} (packages : PackageMap) poetry
    (key : A → string) (key' : B → string) roots roots' dependencies :
  map key roots = map key' roots' →
  extend_with_transients packages poetry key roots dependencies
  = extend_with_transients packages poetry key' roots' dependencies.
Proof.
  revert roots' dependencies.
  induction roots as [|root rest IH]; intros [|root' rest'] acc Hkeys;
    try done.
  simpl in *. injection Hkeys as Hkey Hrest. rewrite Hkey.
  destruct (identify_transients packages (key' root') _); [|done|done].
  by apply IH.
Qed.

Lemma lower_ascii_lower_case s : ascii_lower_case s = true → lower s = s.
Proof.
  induction s as [|c rest IH]; [done|].
  change (ascii_lower_case (String c rest))
    with ((nat_of_ascii c <? 128)
          && negb ((65 <=? nat_of_ascii c) && (nat_of_ascii c <=? 90))
          && ascii_lower_case rest).
  intros [[_ Hupper%negb_true_iff]%andb_true_iff Hrest]%andb_true_iff.
  change (lower (String c rest)) with (String (ascii_lower c) (lower rest)).
  rewrite IH by done. f_equal. unfold ascii_lower. cbv zeta.
  by rewrite Hupper.
Qed.

(** When every key of the [dev-dependencies] table is made of ASCII
    characters with no upper-case letter among them, [find_dev_dependencies]
    gives what [find_env_dependencies] gives for an environment that locks
    the same names. *)
Theorem find_dev_dependencies_on_lower_case (packages : PackageMap) venv
    poetry table :
  pyproject_dev_dependencies poetry = Some table →
  envconfig_locked_deps venv = map fst table →
  (∀ dep_name, dep_name ∈ map fst table →
               ascii_lower_case dep_name = true) →
  find_dev_dependencies poetry packages
  = find_env_dependencies venv poetry packages.
Proof.
  intros Htable Hdeps Hlower.
  unfold find_dev_dependencies, find_env_dependencies.
  rewrite Htable, Hdeps. apply extend_with_transients_keys.
  clear Htable Hdeps. revert Hlower. generalize (map fst table).
  intros names. induction names as [|dep_name rest IH]; intros Hlower;
    [done|].
  simpl. rewrite lower_ascii_lower_case by (apply Hlower; by left).
  f_equal. apply IH. intros d Hd. apply Hlower. by right.
Qed.

Lemma extend_with_transients_sound {A : Type} (packages : PackageMap) poetry
    (key : A → string) roots l q :
  extend_with_transients packages poetry key roots [] = Return l →
  q ∈ l →
  ∃ root found,
    root ∈ roots ∧
    identify_transients packages (key root) [package_name poetry]
    = Return found ∧
    q ∈ found.
Proof.
  intros (ls & Hall & ->)%extend_with_transients_spec Hq. simpl in Hq.
  apply list_elem_of_In, in_concat in Hq as (found & Hfound & Hq).
  apply list_elem_of_In in Hfound, Hq.
  apply list_elem_of_lookup in Hfound as [i Hi].
  destruct (Forall2_lookup_r _ _ _ _ _ Hall Hi) as (root & Hroot & Hrun).
  exists root, found. split; [by eapply list_elem_of_lookup_2|done].
Qed.

(** On a store keyed by package name, every package that a builder returns
    is the package that the store holds under its name, has no unsafe name,
    and fits the running interpreter and platform. *)
Theorem builders_return_eligible_packages (packages : PackageMap) venv poetry
    l q :
  store_wf packages →
  find_env_dependencies venv poetry packages = Return l ∨
  find_dev_dependencies poetry packages = Return l ∨
  find_project_dependencies venv poetry packages = Return l →
  q ∈ l →
  packages !! Package.name q = Some q ∧
  Package.name q ∉ UNSAFE_PACKAGES ∧
  compatible q = true.
Proof.
  intros Hwf Hrun Hq.
  assert (Hfound : ∃ root found,
            identify_transients packages root [package_name poetry]
            = Return found ∧ q ∈ found).
  { destruct Hrun as [Hrun|[Hrun|Hrun]].
    - destruct (extend_with_transients_sound _ _ _ _ _ _ Hrun Hq)
        as (root & found & _ & Hfound & Hin). eauto.
    - destruct (extend_with_transients_sound _ _ _ _ _ _ Hrun Hq)
        as (root & found & _ & Hfound & Hin). eauto.
    - unfold find_project_dependencies in Hrun.
      destruct (lookup_all packages _) as [base| |]; [|done|done].
      destruct (collect_extras venv poetry packages _ _) as [extra| |];
        [|done|done].
      destruct (extend_with_transients_sound _ _ _ _ _ _ Hrun Hq)
        as (root & found & _ & Hfound & Hin). eauto. }
  destruct Hfound as (root & found & Hfound & Hin).
  destruct (identify_transients_sound _ _ _ _ _ Hfound Hin)
    as (x & Hx & Hun & q' & Hx' & Hc).
  rewrite Hx in Hx'. injection Hx' as <-.
  by rewrite (Hwf _ _ Hx).
Qed.

Lemma lookup_all_return (packages : PackageMap) items :
  (∀ item, item ∈ items → is_Some (packages !! Dependency.name item)) →
  ∃ found, lookup_all packages items = Return found.
Proof.
  induction items as [|item rest IH]; intros Hall; simpl; [by eexists|].
  destruct (Hall item) as [package ->]; [by left|].
  destruct IH as [found ->]; [|by eexists].
  intros i Hi. apply Hall. by right.
Qed.

Lemma lookup_all_raise (packages : PackageMap) before item after :
  (∀ i, i ∈ before → is_Some (packages !! Dependency.name i)) →
  packages !! Dependency.name item = None →
  lookup_all packages (before ++ item :: after)
  = Raise (KeyError (Dependency.name item)).
Proof.
  intros Hall Hnone. induction before as [|i before IH]; simpl.
  - by rewrite Hnone.
  - destruct (Hall i) as [package ->]; [by left|].
    rewrite IH; [done|]. intros j Hj. apply Hall. by right.
Qed.

(** [find_project_dependencies] looks the project's non-optional
    requirements up outside any handler: when one of them is missing from
    the store, the [KeyError] of the first such lookup leaves the builder
    as it is, whatever the extras of the environment are. *)
Theorem find_project_dependencies_key_error (packages : PackageMap) venv
    poetry before item after :
  filter (λ item, Dependency.optional item = false) (package_requires poetry)
  = before ++ item :: after →
  (∀ i, i ∈ before → is_Some (packages !! Dependency.name i)) →
  packages !! Dependency.name item = None →
  find_project_dependencies venv poetry packages
  = Raise (KeyError (Dependency.name item)).
Proof.
  intros Hreq Hall Hnone. unfold find_project_dependencies.
  by rewrite Hreq, lookup_all_raise.
Qed.

Lemma collect_extras_raise (packages : PackageMap) venv poetry before extra
    after extra_dependencies :
  Forall (extra_resolves packages poetry) before →
  (package_extras poetry !! extra = None ∨
   ∃ items item, package_extras poetry !! extra = Some items ∧
                 item ∈ items ∧ packages !! Dependency.name item = None) →
  collect_extras venv poetry packages (before ++ extra :: after)
    extra_dependencies
  = Raise (ExtraNotFoundError (extra_not_found_msg venv extra)).
Proof.
  intros Hbefore Hbad. revert extra_dependencies.
  induction Hbefore as [|x before (items & Hx & Hitems) _ IH]; intros acc;
    simpl.
  - destruct Hbad as [->|(items & item & -> & Hin & Hnone)]; [done|].
    apply list_elem_of_split in Hin as (l1 & l2 & ->).
    assert (Hraise : ∃ k, lookup_all packages (l1 ++ item :: l2)
                          = Raise (KeyError k)).
    { clear -Hnone. induction l1 as [|i l1 [k IH]]; simpl.
      - rewrite Hnone. by eexists.
      - destruct (packages !! Dependency.name i); [|by eexists].
        rewrite IH. by eexists. }
    destruct Hraise as [k ->]. done.
  - rewrite Hx. destruct (lookup_all_return packages items Hitems)
      as [found ->].
    apply IH.
Qed.

(** With every non-optional requirement of the project in the store,
    [find_project_dependencies] raises [ExtraNotFoundError] for the first
    extra of the environment that the project does not declare, and also
    for the first declared extra that lists a package missing from the
    store: the [KeyError] of that lookup is reported as a missing extra. *)
Theorem find_project_dependencies_extra_error (packages : PackageMap) venv
    poetry before extra after :
  (∀ item, item ∈ package_requires poetry →
           Dependency.optional item = false →
           is_Some (packages !! Dependency.name item)) →
  envconfig_extras venv = before ++ extra :: after →
  Forall (extra_resolves packages poetry) before →
  (package_extras poetry !! extra = None ∨
   ∃ items item, package_extras poetry !! extra = Some items ∧
                 item ∈ items ∧ packages !! Dependency.name item = None) →
  find_project_dependencies venv poetry packages
  = Raise (ExtraNotFoundError (extra_not_found_msg venv extra)).
Proof.
  intros Hbase Hextras Hbefore Hbad. unfold find_project_dependencies.
  destruct (lookup_all_return packages
              (filter (λ item, Dependency.optional item = false)
                 (package_requires poetry))) as [base ->].
  { intros item [Hopt Hin]%list_elem_of_filter. by apply Hbase. }
  by rewrite Hextras, collect_extras_raise.
Qed.

(** [find_project_dependencies] does not look at an optional requirement of
    the project: dropping one from [poetry.package.requires] leaves the
    outcome as it is, whether or not the store holds the package. *)
Theorem find_project_dependencies_skips_optional (packages : PackageMap) venv
    poetry before item after :
  package_requires poetry = before ++ item :: after →
  Dependency.optional item = true →
  find_project_dependencies venv poetry packages
  = find_project_dependencies venv
      {| package_name := package_name poetry;
         package_requires := before ++ after;
         package_extras := package_extras poetry;
         pyproject_dev_dependencies := pyproject_dev_dependencies poetry |}
      packages.
Proof.
  intros Hreq Hopt. unfold find_project_dependencies. simpl.
  rewrite Hreq, !filter_app, filter_cons_False by congruence.
  destruct (lookup_all packages _) as [base| |]; [|done|done].
  assert (Hextras : ∀ extras acc,
            collect_extras venv poetry packages extras acc
            = collect_extras venv
                {| package_name := package_name poetry;
                   package_requires := before ++ after;
                   package_extras := package_extras poetry;
                   pyproject_dev_dependencies :=
                     pyproject_dev_dependencies poetry |}
                packages extras acc).
  { induction extras as [|extra rest IH]; intros acc; simpl; [done|].
    destruct (package_extras poetry !! extra) as [items|]; [|done].
    destruct (lookup_all packages items) as [found|e|]; [|done|done].
    apply IH. }
  rewrite <- Hextras.
  destruct (collect_extras venv poetry packages _ _) as [extra| |];
    [|done|done].
  generalize (base ++ extra) ([] : list PoetryPackage).
  induction l as [|root rest IH]; intros acc; simpl; [done|].
  destruct (identify_transients packages _ _); [|done|done]. apply IH.
Qed.

(** ** [install_to_venv] *)

Lemma install_to_venv_app {I E : Type}
    (install : I → PoetryPackage → I * option E) installer before rest :
  install_to_venv install installer (before ++ rest)
  = match install_to_venv install installer before with
    | (installer', None) => install_to_venv install installer' rest
    | failed => failed
    end.
Proof.
  revert installer. induction before as [|dependency before IH];
    intros installer; simpl; [done|].
  destruct (install installer dependency) as [installer' [e|]]; [done|].
  apply IH.
Qed.

(** [install_to_venv] hands every package to the installer, in list order,
    each in the state that the packages before it left, and stops at the
    first failure.  If the packages [before] went through and left the
    state [installer'], the run over [before ++ dependency :: rest] calls
    [install installer' dependency]: when that call fails, its state and
    exception are the outcome and [rest] plays no part; when it succeeds,
    the run goes on with [rest] from the state it left.  With an installer
    that never fails, the final state is that of installing the packages
    one by one from left to right. *)
Theorem install_to_venv_in_order {I E : Type}
    (install : I → PoetryPackage → I * option E) installer :
  (∀ before dependency rest installer',
     install_to_venv install installer before = (installer', None) →
     (∀ installer'' e,
        install installer' dependency = (installer'', Some e) →
        install_to_venv install installer (before ++ dependency :: rest)
        = (installer'', Some e)) ∧
     (∀ installer'',
        install installer' dependency = (installer'', None) →
        install_to_venv install installer (before ++ dependency :: rest)
        = install_to_venv install installer'' rest)) ∧
  (∀ packages,
     (∀ state dependency, (install state dependency).2 = None) →
     install_to_venv install installer packages
     = (foldl (λ state dependency, (install state dependency).1) installer
          packages, None)).
Proof.
  split.
  - intros before dependency rest installer' Hbefore.
    split.
    + intros installer'' e Hcall.
      rewrite install_to_venv_app, Hbefore. simpl. by rewrite Hcall.
    + intros installer'' Hcall.
      rewrite install_to_venv_app, Hbefore. simpl. by rewrite Hcall.
  - intros packages Hok. revert installer.
    induction packages as [|dependency rest IH]; intros installer; simpl;
      [done|].
    specialize (Hok installer dependency).
    destruct (install installer dependency) as [installer' [e|]];
      simpl in *; [done|]. apply IH.
Qed.

End Resolver.

(** ** The walk on concrete stores

    The constants take the values of Poetry and of [constants.py]; a
    constraint is a boolean that says whether the running interpreter is
    accepted. *)

Local Abbreviation identify :=
  (identify_transients flag_allows tt "linux" poetry_unsafe_packages
     pep508_version_delimiters).
Local Abbreviation sample_eligible :=
  (eligible flag_allows tt "linux" poetry_unsafe_packages).
Local Abbreviation sample_follows :=
  (follows flag_allows tt "linux" poetry_unsafe_packages).

Ltac store_cases H :=
  repeat (apply lookup_insert_Some in H as [[<- <-]|[? H]]);
  try (by rewrite lookup_empty in H).

Ltac not_unsafe := apply (bool_decide_eq_false_1 _); reflexivity.

Lemma chain_store_wf (c : bool) : store_wf (chain_store c).
Proof. intros k package Hk. unfold chain_store in Hk. store_cases Hk; done. Qed.

Lemma chain_store_edge (c : bool) a b :
  edge (chain_store c) a b → (a = "A" ∧ b = "B") ∨ (a = "B" ∧ b = "C").
Proof.
  intros (package & dep & Hk & Hdep & <-). unfold chain_store in Hk.
  store_cases Hk; simpl in Hdep.
  - apply list_elem_of_singleton in Hdep as ->. by left.
  - apply list_elem_of_singleton in Hdep as ->. by right.
  - by apply elem_of_nil in Hdep.
Qed.

Lemma chain_store_reach (c : bool) x :
  rtc (edge (chain_store c)) "A" x → x = "A" ∨ x = "B" ∨ x = "C".
Proof.
  revert x. apply rtc_ind_r; [by left|].
  intros y z _ [[_ ->]|[_ ->]]%chain_store_edge _; auto.
Qed.

Lemma chain_store_witness :
  ∃ l, identify (chain_store true) "A" [] = Return l ∧
       (∀ q, q ∈ l ↔
             ∃ x, rtc (edge (chain_store true)) "A" x ∧
                  chain_store true !! x = Some q) ∧
       NoDup l ∧ postorder (chain_store true) l.
Proof.
  apply (proj1 (identify_transients_postorder flag_allows tt "linux"
                  poetry_unsafe_packages pep508_version_delimiters)).
  - apply chain_store_wf.
  - by eexists.
  - apply (acyclic_by_rank _ chain_rank).
    by intros a b [[-> ->]|[-> ->]]%chain_store_edge; vm_compute; lia.
  - intros x [-> | [-> | ->]]%chain_store_reach; (split; [not_unsafe|]);
      intros package Hk; vm_compute in Hk; by injection Hk as <-.
  - intros x [-> | [-> | ->]]%chain_store_reach; by eexists.
Defined.

Ltac sample_is_eligible :=
  split; [not_unsafe|eexists; split; reflexivity].

Ltac sample_edge dep :=
  eexists _, (sample_requirement dep);
  split; [reflexivity|split; [by repeat constructor|reflexivity]].

Ltac sample_step dep := split; [sample_is_eligible|sample_edge dep].

Lemma cycle_store_edge (c : bool) a b :
  edge (cycle_store c) a b → (a = "A" ∧ b = "B") ∨ (a = "B" ∧ b = "A").
Proof.
  intros (package & dep & Hk & Hdep & <-). unfold cycle_store in Hk.
  store_cases Hk; simpl in Hdep.
  - apply list_elem_of_singleton in Hdep as ->. by left.
  - apply list_elem_of_singleton in Hdep as ->. by right.
Qed.

Lemma cycle_store_reach (c : bool) x :
  rtc (edge (cycle_store c)) "A" x → x = "A" ∨ x = "B".
Proof.
  revert x. apply rtc_ind_r; [by left|].
  intros y z _ [[_ ->]|[_ ->]]%cycle_store_edge _; auto.
Qed.

Lemma cycle_store_witness :
  (∃ l, identify (cycle_store true) "A" [] = Return l) ∧
  identify (cycle_store true) "A" []
  = Return [sample_package "B" true ["A"]; sample_package "A" true ["B"]].
Proof.
  split.
  - destruct (proj1 (identify_transients_terminates flag_allows tt "linux"
                       poetry_unsafe_packages pep508_version_delimiters)
                (cycle_store true) "A" []) as (_ & _ & _ & _ & Hclosed).
    apply (Hclosed (sample_package "A" true ["B"])); [reflexivity|].
    intros x Hx. change (rtc (edge (cycle_store true)) "A" x) in Hx.
    apply cycle_store_reach in Hx as [-> | ->]; by eexists.
  - apply (proj2 (identify_transients_terminates flag_allows tt "linux"
                    poetry_unsafe_packages pep508_version_delimiters)).
    + reflexivity.
    + not_unsafe.
    + not_unsafe.
Defined.

Lemma dangling_store_wf (c : bool) : store_wf (dangling_store c).
Proof.
  intros k package Hk. unfold dangling_store in Hk. store_cases Hk; done.
Qed.

Lemma dangling_store_edge (c : bool) a b :
  edge (dangling_store c) a b → a = "a" ∧ b = "b".
Proof.
  intros (package & dep & Hk & Hdep & <-). unfold dangling_store in Hk.
  store_cases Hk; simpl in Hdep.
  by apply list_elem_of_singleton in Hdep as ->.
Qed.

Lemma dangling_store_reach (c : bool) x :
  rtc (edge (dangling_store c)) "a" x → x = "a" ∨ x = "b".
Proof.
  revert x. apply rtc_ind_r; [by left|].
  intros y z _ [_ ->]%dangling_store_edge _; auto.
Qed.

Lemma dangling_store_follows : sample_follows (dangling_store true) "a" "b".
Proof. sample_step "b". Qed.

(** The hypotheses of C1 as stated hold of the dangling store, yet the call
    raises: the requirement [b] of [a] has no package. *)
Lemma dangling_store_escapes_postorder :
  store_wf (dangling_store true) ∧
  is_Some (dangling_store true !! "a") ∧
  acyclic_from (dangling_store true) "a" ∧
  clean_from flag_allows tt "linux" poetry_unsafe_packages
    (dangling_store true) "a" ∧
  identify (dangling_store true) "a" []
  = Raise (LockedDepNotFoundError
             "No version of locked dependency 'a' found in the project lockfile") ∧
  ¬ ∃ l, identify (dangling_store true) "a" [] = Return l.
Proof.
  split; [apply dangling_store_wf|].
  split; [by eexists|].
  split.
  { apply (acyclic_by_rank _ dangling_rank).
    by intros a b [-> ->]%dangling_store_edge; vm_compute; lia. }
  split.
  { intros x [-> | ->]%dangling_store_reach; (split; [not_unsafe|]);
      intros package Hk; vm_compute in Hk; [by injection Hk as <-|done]. }
  split; [reflexivity|]. by intros [l Hl].
Qed.

(** On the dangling store the lookup that fails is the one of [b]; the
    error that leaves [identify_transients] is neither that [KeyError] nor
    an error about [b]: it quotes the root [a]. *)
Lemma dangling_store_error_names_root :
  (traverse flag_allows tt "linux" poetry_unsafe_packages
     (dangling_store true) "a" []).2 = Raise (KeyError "b") ∧
  identify (dangling_store true) "a" []
  = Raise (LockedDepNotFoundError
             "No version of locked dependency 'a' found in the project lockfile") ∧
  identify (dangling_store true) "a" [] ≠ Raise (KeyError "b") ∧
  identify (dangling_store true) "a" []
  ≠ Raise (LockedDepNotFoundError
             "No version of locked dependency 'b' found in the project lockfile").
Proof. by vm_compute. Qed.

Lemma missing_root_classified_witness :
  identify (dangling_store true) "foo>=1.0" []
  = Raise (LockedDepVersionConflictError
             "Locked dependency 'foo>=1.0' cannot include version specifier") ∧
  identify (dangling_store true) "foo" []
  = Raise (LockedDepNotFoundError
             "No version of locked dependency 'foo' found in the project lockfile").
Proof.
  split.
  - apply (missing_root_classified flag_allows tt "linux" poetry_unsafe_packages
             pep508_version_delimiters (dangling_store true) "foo>=1.0" []);
      [reflexivity|not_unsafe|].
    exists ">". split; [by repeat constructor|reflexivity].
  - apply (missing_root_classified flag_allows tt "linux" poetry_unsafe_packages
             pep508_version_delimiters (dangling_store true) "foo" []);
      [reflexivity|not_unsafe|].
    intros delimiter Hin. apply list_elem_of_In in Hin. simpl in Hin.
    by destruct Hin as [<-|[<-|[<-|[<-|[<-|[]]]]]].
Defined.

Lemma allow_missing_ignored_for_root_witness :
  identify (dangling_store true) "proj" ["proj"]
  = Raise (LockedDepNotFoundError (not_found_msg "proj")) ∧
  ∀ fuel st,
    find_deps_of_deps flag_allows tt "linux" poetry_unsafe_packages
      (dangling_store true) ["proj"] (S fuel) "proj" st
    = (mark "proj" st, Return tt).
Proof.
  apply allow_missing_ignored_for_root;
    [reflexivity|not_unsafe|reflexivity|by repeat constructor].
Defined.

Lemma pruned_store_wf : store_wf pruned_store.
Proof. intros k package Hk. unfold pruned_store in Hk. store_cases Hk; done. Qed.


Lemma unsafe_store_wf : store_wf unsafe_store.
Proof. intros k package Hk. unfold unsafe_store in Hk. store_cases Hk; done. Qed.

Lemma bootstrap_store_wf : store_wf bootstrap_store.
Proof.
  intros k package Hk. unfold bootstrap_store in Hk. store_cases Hk; done.
Qed.

Lemma bootstrap_store_reach x :
  rtc (sample_follows bootstrap_store) "a" x →
  x = "a" ∨ x = "setuptools" ∨ x = "pip" ∨ x = "c".
Proof.
  revert x. apply rtc_ind_r; [by left|].
  intros y z _ [[Hun _] (package & dep & Hk & Hdep & <-)] _.
  unfold bootstrap_store in Hk. store_cases Hk; simpl in Hdep.
  - apply list_elem_of_In in Hdep. simpl in Hdep.
    destruct Hdep as [<-|[<-|[<-|[]]]]; auto.
  - exfalso. apply Hun. by apply (bool_decide_eq_true_1 _).
  - by apply elem_of_nil in Hdep.
Qed.

Lemma unsafe_names_skipped_witness :
  identify unsafe_store "pip" [] = Return [] ∧
  identify unsafe_store "setuptools" [] = Return [] ∧
  find_deps_of_deps flag_allows tt "linux" poetry_unsafe_packages unsafe_store []
    1 "pip" (mark "a" initial_state)
  = (mark "pip" (mark "a" initial_state), Return tt) ∧
  Package.name (sample_package "c" true []) ∉ poetry_unsafe_packages ∧
  ∃ l, identify bootstrap_store "a" [] = Return l ∧
       ∀ x q, rtc (sample_follows bootstrap_store) "a" x →
              sample_eligible bootstrap_store x →
              bootstrap_store !! x = Some q → q ∈ l.
Proof.
  destruct (unsafe_names_skipped flag_allows tt "linux" poetry_unsafe_packages
              pep508_version_delimiters unsafe_store [] unsafe_store_wf)
    as (Hroot & Hskip & _ & Hsound & _).
  destruct (unsafe_names_skipped flag_allows tt "linux" poetry_unsafe_packages
              pep508_version_delimiters bootstrap_store [] bootstrap_store_wf)
    as (_ & _ & _ & _ & Hcall & _).
  split; [|split; [|split; [|split]]].
  - apply Hroot. by apply (bool_decide_eq_true_1 _).
  - apply Hroot. by apply (bool_decide_eq_true_1 _).
  - apply Hskip. by apply (bool_decide_eq_true_1 _).
  - apply (Hsound "a" [sample_package "c" true [];
                       sample_package "a" true ["pip"; "c"]]);
      [reflexivity|by repeat constructor].
  - apply Hcall; [by eexists|].
    intros k [-> | [-> | [-> | ->]]]%bootstrap_store_reach Hnone;
      try done.
    left. by apply (bool_decide_eq_true_1 _).
Defined.

Lemma tolerated_missing_skipped_witness :
  ∃ l, identify (dangling_store true) "a" ["b"] = Return l ∧
       ∀ x q, rtc (sample_follows (dangling_store true)) "a" x →
              sample_eligible (dangling_store true) x →
              dangling_store true !! x = Some q → q ∈ l.
Proof.
  destruct (tolerated_missing_skipped flag_allows tt "linux" poetry_unsafe_packages
              pep508_version_delimiters (dangling_store true) ["b"]
              (dangling_store_wf true)) as (_ & _ & Hcall).
  apply Hcall; [by eexists|].
  intros k Hpath%follows_edge Hnone.
  apply dangling_store_reach in Hpath as [-> | ->]; [done|].
  left. by repeat constructor.
Defined.

Lemma deep_lookup_failure_reported_for_root_witness :
  (∃ k', (traverse flag_allows tt "linux" poetry_unsafe_packages
            (dangling_store true) "a" []).2 = Raise (KeyError k') ∧
         dangling_store true !! k' = None ∧ k' ∉ [] ∧ k' ≠ "a") ∧
  identify (dangling_store true) "a" []
  = Raise (LockedDepNotFoundError (not_found_msg "a")).
Proof.
  apply (deep_lookup_failure_reported_for_root flag_allows tt "linux"
           poetry_unsafe_packages pep508_version_delimiters
           (dangling_store true) "a" [] "b").
  - apply dangling_store_wf.
  - by eexists.
  - apply rtc_once, dangling_store_follows.
  - reflexivity.
  - by intros Hin%elem_of_nil.
  - not_unsafe.
Defined.

Lemma shared_store_wf : store_wf shared_store.
Proof. intros k package Hk. unfold shared_store in Hk. store_cases Hk; done. Qed.

Lemma builders_do_not_deduplicate_witness :
  find_env_dependencies flag_allows tt "linux" poetry_unsafe_packages
    pep508_version_delimiters (sample_venv ["A"; "b"]) foo_project shared_store
  = Return ([sample_package "c" true []; sample_package "a" true ["c"]]
            ++ [sample_package "c" true []; sample_package "b" true ["c"]]) ∧
  occurrences (sample_package "c" true [])
    [sample_package "c" true []; sample_package "a" true ["c"]] = 1 ∧
  occurrences (sample_package "c" true [])
    [sample_package "c" true []; sample_package "b" true ["c"]] = 1 ∧
  occurrences (sample_package "c" true [])
    ([sample_package "c" true []; sample_package "a" true ["c"]]
     ++ [sample_package "c" true []; sample_package "b" true ["c"]]) = 2.
Proof.
  destruct (builders_do_not_deduplicate flag_allows tt "linux"
              poetry_unsafe_packages pep508_version_delimiters shared_store
              (sample_venv ["A"; "b"]) foo_project shared_store_wf)
    as (_ & _ & _ & Hpair).
  apply (Hpair "A" "b" _ _ "c"); try reflexivity.
  - apply rtc_once. sample_step "c".
  - apply rtc_once. sample_step "c".
  - sample_is_eligible.
Defined.

(** C9: package names are meant to be matched without regard to case, and
    [find_env_dependencies] and [find_project_dependencies] lower the root
    names before the lookup; [find_dev_dependencies] does not.  With the
    store [{foo: ...}] and the dev dependency [Foo], the dev builder raises
    [LockedDepNotFoundError] where the env builder, given the same name,
    returns the package of [foo]; and [identify_transients] itself answers
    differently for [Foo] and for its lowercase form. *)
Theorem dev_dependency_names_not_lowered :
  find_dev_dependencies flag_allows tt "linux" poetry_unsafe_packages
    pep508_version_delimiters foo_project foo_store
  = Raise (LockedDepNotFoundError
             "No version of locked dependency 'Foo' found in the project lockfile") ∧
  find_env_dependencies flag_allows tt "linux" poetry_unsafe_packages
    pep508_version_delimiters (sample_venv ["Foo"]) foo_project foo_store
  = Return [sample_package "foo" true []] ∧
  identify foo_store "Foo" [] ≠ identify foo_store (lower "Foo") [].
Proof. by vm_compute. Qed.

(** ** The further properties on concrete stores *)

Local Abbreviation env_dependencies :=
  (find_env_dependencies flag_allows tt "linux" poetry_unsafe_packages
     pep508_version_delimiters).
Local Abbreviation dev_dependencies :=
  (find_dev_dependencies flag_allows tt "linux" poetry_unsafe_packages
     pep508_version_delimiters).
Local Abbreviation project_dependencies :=
  (find_project_dependencies flag_allows tt "linux" poetry_unsafe_packages
     pep508_version_delimiters).

Lemma cycle_store_wf (c : bool) : store_wf (cycle_store c).
Proof. intros k package Hk. unfold cycle_store in Hk. store_cases Hk; done. Qed.

Lemma identify_transients_exact_witness :
  sample_package "B" true ["A"]
  ∈ [sample_package "B" true ["A"]; sample_package "A" true ["B"]] ↔
  ∃ x, rtc (sample_follows (cycle_store true)) "A" x ∧
       sample_eligible (cycle_store true) x ∧
       cycle_store true !! x = Some (sample_package "B" true ["A"]).
Proof.
  apply (identify_transients_exact flag_allows tt "linux"
           poetry_unsafe_packages pep508_version_delimiters
           (cycle_store true) "A" []).
  - apply cycle_store_wf.
  - reflexivity.
Defined.

Lemma identify_transients_bounded_witness :
  NoDup [sample_package "B" true ["A"]; sample_package "A" true ["B"]] ∧
  length [sample_package "B" true ["A"]; sample_package "A" true ["B"]]
  ≤ size (cycle_store true).
Proof.
  apply (identify_transients_bounded flag_allows tt "linux"
           poetry_unsafe_packages pep508_version_delimiters
           (cycle_store true) "A" []).
  - apply cycle_store_wf.
  - reflexivity.
Defined.

Lemma identify_transients_root_last_witness :
  identify pruned_store "r" [] = Return [] ∧
  last [sample_package "c" true []; sample_package "a" true ["r"; "c"]]
  = Some (sample_package "a" true ["r"; "c"]).
Proof.
  split.
  - apply (proj1 (identify_transients_root_last flag_allows tt "linux"
                    poetry_unsafe_packages pep508_version_delimiters
                    pruned_store "r" [] (sample_package "r" false ["c"; "d"])
                    pruned_store_wf eq_refl)).
    intros [_ (package & Hk & Hc)]. vm_compute in Hk. injection Hk as <-.
    discriminate.
  - apply (proj2 (identify_transients_root_last flag_allows tt "linux"
                    poetry_unsafe_packages pep508_version_delimiters
                    pruned_store "a" [] (sample_package "a" true ["r"; "c"])
                    pruned_store_wf eq_refl)).
    + sample_is_eligible.
    + reflexivity.
Defined.

Lemma identify_transients_tolerate_more_witness :
  identify (dangling_store true) "a" ["b"; "x"]
  = Return [sample_package "a" true ["b"]].
Proof.
  apply (identify_transients_tolerate_more flag_allows tt "linux"
           poetry_unsafe_packages pep508_version_delimiters
           (dangling_store true) "a" ["b"]).
  - apply dangling_store_wf.
  - intros x ->%list_elem_of_singleton. by left.
  - reflexivity.
Defined.

Lemma identify_transients_error_kinds_witness :
  "a" ∉ poetry_unsafe_packages ∧
  (LockedDepNotFoundError (not_found_msg "a")
   = LockedDepVersionConflictError (version_conflict_msg "a") ∧
   has_version_delimiter pep508_version_delimiters "a" = true ∨
   LockedDepNotFoundError (not_found_msg "a")
   = LockedDepNotFoundError (not_found_msg "a") ∧
   has_version_delimiter pep508_version_delimiters "a" = false).
Proof.
  apply (identify_transients_error_kinds flag_allows tt "linux"
           poetry_unsafe_packages pep508_version_delimiters
           (dangling_store true) "a" []).
  reflexivity.
Defined.

Lemma identify_transients_local_witness :
  identify (chain_store true) "A" [] = identify extended_chain_store "A" [].
Proof.
  apply identify_transients_local.
  - apply chain_store_wf.
  - by intros x [-> | [-> | ->]]%chain_store_reach.
Defined.

Lemma builders_fail_at_first_error_witness :
  env_dependencies (sample_venv ["a"; "zzz"; "b"]) foo_project shared_store
  = Raise (LockedDepNotFoundError (not_found_msg "zzz")).
Proof.
  apply (proj1 (builders_fail_at_first_error flag_allows tt "linux"
                  poetry_unsafe_packages pep508_version_delimiters
                  shared_store foo_project)
           (sample_venv ["a"; "zzz"; "b"]) ["a"] "zzz" ["b"]
           [[sample_package "c" true []; sample_package "a" true ["c"]]]).
  - reflexivity.
  - by repeat constructor.
  - reflexivity.
Defined.

Lemma find_dev_dependencies_on_lower_case_witness :
  dev_dependencies extras_project shared_store
  = env_dependencies (sample_venv ["c"]) extras_project shared_store.
Proof.
  apply (find_dev_dependencies_on_lower_case flag_allows tt "linux"
           poetry_unsafe_packages pep508_version_delimiters shared_store
           (sample_venv ["c"]) extras_project [("c", "^1.0")]).
  - reflexivity.
  - reflexivity.
  - by intros dep_name ->%list_elem_of_singleton.
Defined.

Lemma builders_return_eligible_packages_witness :
  shared_store !! Package.name (sample_package "c" true [])
  = Some (sample_package "c" true []) ∧
  Package.name (sample_package "c" true []) ∉ poetry_unsafe_packages ∧
  compatible flag_allows tt "linux" (sample_package "c" true []) = true.
Proof.
  apply (builders_return_eligible_packages flag_allows tt "linux"
           poetry_unsafe_packages pep508_version_delimiters shared_store
           (sample_venv ["A"; "b"]) foo_project
           ([sample_package "c" true []; sample_package "a" true ["c"]]
            ++ [sample_package "c" true []; sample_package "b" true ["c"]])).
  - apply shared_store_wf.
  - left. reflexivity.
  - by repeat constructor.
Defined.

Lemma find_project_dependencies_key_error_witness :
  project_dependencies (extras_venv ["docs"]) incomplete_project shared_store
  = Raise (KeyError "gone").
Proof.
  apply (find_project_dependencies_key_error flag_allows tt "linux"
           poetry_unsafe_packages pep508_version_delimiters shared_store
           (extras_venv ["docs"]) incomplete_project
           [sample_requirement "a"] (sample_requirement "gone") []).
  - reflexivity.
  - intros i ->%list_elem_of_singleton. by eexists.
  - reflexivity.
Defined.

Lemma extras_project_docs_resolves :
  extra_resolves shared_store extras_project "docs".
Proof.
  exists [sample_requirement "c"]. split; [reflexivity|].
  intros item ->%list_elem_of_singleton. by eexists.
Qed.

Lemma find_project_dependencies_extra_error_witness :
  project_dependencies (extras_venv ["docs"; "tests"]) extras_project
    shared_store
  = Raise (ExtraNotFoundError
             (extra_not_found_msg (extras_venv ["docs"; "tests"]) "tests")) ∧
  project_dependencies (extras_venv ["docs"; "broken"]) extras_project
    shared_store
  = Raise (ExtraNotFoundError
             (extra_not_found_msg (extras_venv ["docs"; "broken"]) "broken")).
Proof.
  assert (Hbase : ∀ item, item ∈ package_requires extras_project →
            Dependency.optional item = false →
            is_Some (shared_store !! Dependency.name item)).
  { intros item Hin Hopt. apply list_elem_of_In in Hin. simpl in Hin.
    destruct Hin as [<-|[<-|[]]]; [by eexists|discriminate]. }
  split.
  - apply (find_project_dependencies_extra_error flag_allows tt "linux"
             poetry_unsafe_packages pep508_version_delimiters shared_store
             (extras_venv ["docs"; "tests"]) extras_project
             ["docs"] "tests" []); [done|reflexivity| |by left].
    constructor; [apply extras_project_docs_resolves|constructor].
  - apply (find_project_dependencies_extra_error flag_allows tt "linux"
             poetry_unsafe_packages pep508_version_delimiters shared_store
             (extras_venv ["docs"; "broken"]) extras_project
             ["docs"] "broken" []); [done|reflexivity| |].
    + constructor; [apply extras_project_docs_resolves|constructor].
    + right. exists [sample_requirement "nowhere"], (sample_requirement "nowhere").
      split; [reflexivity|]. split; [by left|reflexivity].
Defined.

Lemma find_project_dependencies_skips_optional_witness :
  project_dependencies (extras_venv ["docs"]) extras_project shared_store
  = project_dependencies (extras_venv ["docs"])
      {| package_name := "proj";
         package_requires := [sample_requirement "a"] ++ [];
         package_extras := package_extras extras_project;
         pyproject_dev_dependencies := Some [("c", "^1.0")] |}
      shared_store.
Proof.
  apply (find_project_dependencies_skips_optional flag_allows tt "linux"
           poetry_unsafe_packages pep508_version_delimiters shared_store
           (extras_venv ["docs"]) extras_project
           [sample_requirement "a"] (Dependency.mk "opt" "*" true) []).
  - reflexivity.
  - reflexivity.
Defined.


Lemma identify_transients_closed_witness :
  ∃ l', identify (chain_store true) "B" [] = Return l' ∧
        sample_package "B" true ["C"] ∈ l' ∧
        l' ⊆ [sample_package "C" true []; sample_package "B" true ["C"];
              sample_package "A" true ["B"]].
Proof.
  apply (identify_transients_closed flag_allows tt "linux"
           poetry_unsafe_packages pep508_version_delimiters
           (chain_store true) "A" [] _ (sample_package "B" true ["C"])).
  - apply chain_store_wf.
  - reflexivity.
  - by repeat constructor.
Defined.

Lemma install_to_venv_in_order_witness :
  install_to_venv refusing_installer []
    ([sample_package "c" true []]
     ++ sample_package "a" true ["c"] :: [sample_package "b" true ["c"]])
  = ([sample_package "c" true []], Some "cannot install a") ∧
  install_to_venv recording_installer []
    [sample_package "c" true []; sample_package "a" true ["c"];
     sample_package "c" true []]
  = ([sample_package "c" true []; sample_package "a" true ["c"];
      sample_package "c" true []], None).
Proof.
  split.
  - apply (proj1 (proj1 (install_to_venv_in_order refusing_installer [])
                    [sample_package "c" true []]
                    (sample_package "a" true ["c"])
                    [sample_package "b" true ["c"]]
                    [sample_package "c" true []] eq_refl)).
    reflexivity.
  - apply (proj2 (install_to_venv_in_order recording_installer [])).
    reflexivity.
Defined.
